(** * pkg-fetch: the Node.js v14.16.0 patch

    A shallow embedding of the code added by
    [src/patches/node.v14.16.0.cpp.patch]:

    - the argv relay launcher of [src/node_main.cc]
      ([strlen2], [should_set_dummy], [adjacent], [BAKERY], [reorder]);
    - the bootstrap loader [lib/internal/bootstrap/pkg.js] and the one-shot
      guard of [prepareMainThreadExecution];
    - the sourceless-script changes to V8 ([FixSourcelessScript],
      [ShouldFlushBytecode], [JSFunction::ToString], [ParseFunction],
      the flag controller, [SerializedCodeData::SanityCheck]);
    - the host binding [ContextifyScript::New].

    Undefined behaviour of the C++ code (a read past the end of an object, a
    store past the end of an array, a cast of [undefined]) is the result
    [None]. *)

From Stdlib Require Import ZArith Ascii String DecimalString Lia.
From Stdlib.Strings Require Import Byte.
From Stdlib Require DecimalPos DecimalN.
From stdpp Require Import base option list strings gmap.

Local Open Scope Z_scope.
Local Open Scope nat_scope.

(** ** The argv relay launcher ([src/node_main.cc]) *)

Module Launcher.

(** The terminator of a C string. *)
Definition NUL : ascii := Ascii.zero.

(** A [char*] is modelled by what can be read through it: the bytes from the
    pointee up to the end of the object it points into. *)
Definition cptr : Type := list ascii.

(** A string literal: its characters and the terminator the compiler adds. *)
Definition literal (s : string) : cptr := list_ascii_of_string s ++ [NUL].

(** The C string a pointer designates: the bytes before the first [NUL]. *)
Fixpoint c_str (p : cptr) : list ascii :=
  match p with
  | [] => []
  | ch :: p' => if decide (ch = NUL) then [] else ch :: c_str p'
  end.

(** [int strlen2 (char* s)]: [while ( *s) { len += 1; s += 1; }]. *)
Fixpoint strlen2 (s : cptr) : option nat :=
  match s with
  | [] => None
  | ch :: s' => if decide (ch = NUL) then Some 0 else S <$> strlen2 s'
  end.

(** [strlen] of the C library. *)
Definition strlen (s : cptr) : option nat := strlen2 s.

(** [memcpy(&dst[pos], src, n)]. *)
Definition memcpy (dst : list ascii) (pos : nat) (src : cptr) (n : nat)
  : option (list ascii) :=
  if decide (pos + n ≤ length dst ∧ n ≤ length src)
  then Some (take pos dst ++ take n src ++ drop (pos + n) dst)
  else None.

(** [should_set_dummy], POSIX branch: [getenv("PKG_EXECPATH")], then
    [strcmp(execpath_env, "PKG_INVOKE_NODEJS") != 0]. *)
Definition should_set_dummy (getenv : string → option string) : bool :=
  match getenv "PKG_EXECPATH"%string with
  | None => true
  | Some execpath_env =>
      bool_decide (execpath_env ≠ "PKG_INVOKE_NODEJS"%string)
  end.

(** [should_set_dummy], [_WIN32] branch: [result] and [last_error] are what
    [GetEnvironmentVariable] and [GetLastError] return, [execpath_env] is the
    buffer afterwards; [ERROR_SUCCESS] is 0. *)
Definition should_set_dummy_win32
    (result last_error : Z) (execpath_env : string) : bool :=
  if bool_decide (result = 0%Z) && bool_decide (last_error ≠ 0%Z) then true
  else bool_decide (execpath_env ≠ "PKG_INVOKE_NODEJS"%string).

(** The call [node::Start(argc, argv)] that ends [adjacent]: [start_args] is
    the block allocated by [new char[size]], and every [argv[i]] is
    [&args[pos]], kept as the offset [pos]. *)
Record StartCall : Type := mkStartCall {
  start_argc : nat;
  start_args : list ascii;
  start_argv : list nat
}.

(** The strings [node::Start] reads through its [argv]. *)
Definition start_strings (call : StartCall) : list (list ascii) :=
  (λ pos, c_str (drop pos (start_args call))) <$> start_argv call.

(** First loop of [adjacent]: [size += strlen(argv[i]) + 1], over the entries
    the loop visits. *)
Fixpoint adjacent_size (argv : list cptr) : option nat :=
  match argv with
  | [] => Some 0
  | p :: rest =>
      n ← strlen p;
      size ← adjacent_size rest;
      Some (n + 1 + size)
  end.

(** Second loop of [adjacent]: copy, redirect [argv[i]], advance [pos] by the
    length of the copy. *)
Fixpoint adjacent_copy (argv : list cptr) (args : list ascii) (pos : nat)
  : option (list ascii * list nat) :=
  match argv with
  | [] => Some (args, [])
  | p :: rest =>
      n ← strlen p;
      args1 ← memcpy args pos p (n + 1);
      n' ← strlen (drop pos args1);
      r ← adjacent_copy rest args1 (pos + (n' + 1));
      Some (r.1, pos :: r.2)
  end.

(** [adjacent(argc, argv)]. Both loops run over [i < argc]: they visit the
    first [argc] entries of [argv], and an [argc] beyond the entries of the
    array reads past its end. The contents of a fresh [new char[size]] are
    unspecified: every byte of it is [fill]. *)
Definition adjacent (fill : ascii) (argc : nat) (argv : list cptr)
  : option StartCall :=
  if decide (argc ≤ length argv) then
    let visited := take argc argv in
    size ← adjacent_size visited;
    let args := replicate size fill in
    r ← adjacent_copy visited args 0;
    Some (mkStartCall argc r.1 r.2)
  else None.

(** The marker block as [node_main.cc] declares it: a leading [\0], twenty
    times ["// BAKERY "], and the terminator of the literal. *)
Definition BAKERY : cptr :=
  NUL :: list_ascii_of_string
    ("// BAKERY // BAKERY "
     +:+ "// BAKERY // BAKERY // BAKERY // BAKERY // BAKERY // BAKERY "
     +:+ "// BAKERY // BAKERY // BAKERY // BAKERY // BAKERY // BAKERY "
     +:+ "// BAKERY // BAKERY // BAKERY // BAKERY // BAKERY // BAKERY ")
    ++ [NUL].

(** [nargv[c++] = p] on the array [new char*[capacity]], whose first [c]
    entries are [nargv]. *)
Definition nargv_put (capacity : nat) (nargv : list cptr) (p : cptr)
  : option (list cptr) :=
  if decide (length nargv < capacity) then Some (nargv ++ [p]) else None.

(** The [while (true)] loop of [reorder] over the marker block. Every round
    moves [bakery] forward, so [length bakery] rounds are always enough
    ([scan_bakery_fuel]). *)
Fixpoint scan_bakery (fuel capacity : nat) (nargv : list cptr) (bakery : cptr)
  : option (list cptr) :=
  match fuel with
  | O => None
  | S fuel' =>
      width ← strlen2 bakery;
      if decide (width = 0) then Some nargv
      else
        nargv1 ← nargv_put capacity nargv bakery;
        scan_bakery fuel' capacity nargv1 (drop (width + 1) bakery)
  end.

(** The [for (i = 1; i < argc; i++)] loop of [reorder]. *)
Fixpoint copy_rest (capacity : nat) (nargv : list cptr) (rest : list cptr)
  : option (list cptr) :=
  match rest with
  | [] => Some nargv
  | p :: rest' =>
      nargv1 ← nargv_put capacity nargv p;
      copy_rest capacity nargv1 rest'
  end.

(** [int reorder(int argc, char** argv)], with [argc = length argv]. With
    [argc = 0] the entry [argv[0]] is the null pointer that ends [argv], and
    [adjacent] calls [strlen] on it. *)
Definition reorder (fill : ascii) (getenv : string → option string)
    (bakery : cptr) (argv : list cptr) : option StartCall :=
  let argc := length argv in
  let capacity := argc + 64 in
  argv0 ← argv !! 0;
  nargv0 ← nargv_put capacity [] argv0;
  nargv1 ← scan_bakery (S (length bakery)) capacity nargv0 bakery;
  nargv2 ← (if should_set_dummy getenv
            then nargv_put capacity nargv1 (literal "PKG_DUMMY_ENTRYPOINT")
            else Some nargv1);
  nargv3 ← copy_rest capacity nargv2 (drop 1 argv);
  adjacent fill (length nargv3) nargv3.

(** *** Vocabulary of the launcher's specification *)

(** A pointer to a terminated string: [strlen] stays inside the object. *)
Definition terminated (p : cptr) : Prop := NUL ∈ p.

(** A marker string: not empty, no [NUL] inside. *)
Definition marker (m : list ascii) : Prop := m ≠ [] ∧ NUL ∉ m.

(** Strings laid out one after the other, each with its terminator. *)
Definition packed (strings : list (list ascii)) : list ascii :=
  mjoin ((λ s, s ++ [NUL]) <$> strings).

(** Where each string starts in [packed strings], counted from [pos]. *)
Fixpoint positions (pos : nat) (strings : list (list ascii)) : list nat :=
  match strings with
  | [] => []
  | s :: rest => pos :: positions (pos + (length s + 1)) rest
  end.

(** A marker block that holds [markers]: the strings, the empty string that
    ends the scan, and whatever follows in the literal. *)
Definition marker_block (markers : list (list ascii)) (tail : list ascii)
  : cptr :=
  packed markers ++ NUL :: tail.

(** The pointers the scan stores for such a block: one into the block for
    each marker. *)
Fixpoint marker_ptrs (markers : list (list ascii)) (tail : list ascii)
  : list cptr :=
  match markers with
  | [] => []
  | m :: ms => marker_block (m :: ms) tail :: marker_ptrs ms tail
  end.

(** The invocation kind: the relay variable carries the sentinel. *)
Definition self_invoked (getenv : string → option string) : Prop :=
  getenv "PKG_EXECPATH"%string = Some "PKG_INVOKE_NODEJS"%string.

Definition PKG_DUMMY_ENTRYPOINT : list ascii :=
  list_ascii_of_string "PKG_DUMMY_ENTRYPOINT".

(** The argument list section 4.6 of the spec asks for. *)
Definition relayed (getenv : string → option string)
    (argv0 : list ascii) (markers : list (list ascii))
    (rest : list (list ascii)) : list (list ascii) :=
  [argv0] ++ markers
    ++ (if decide (self_invoked getenv) then [] else [PKG_DUMMY_ENTRYPOINT])
    ++ rest.

(** Environments and arguments to run the launcher on. *)
Definition env_direct (name : string) : option string := None.

Definition env_self_invoked (name : string) : option string :=
  if decide (name = "PKG_EXECPATH"%string)
  then Some "PKG_INVOKE_NODEJS"%string else None.

Definition sample_argv : list cptr :=
  [literal "/usr/bin/app"; literal "--port"; literal "80"].

Definition sample_markers : list (list ascii) :=
  [list_ascii_of_string "--max-old-space-size=64";
   list_ascii_of_string "--no-warnings"].

End Launcher.

(** ** The sourceless-script changes to V8 ([deps/v8]) *)

Module V8.

(** What [Script::source()] holds: a string, or the [undefined] value that
    [FixSourcelessScript] stores. The empty string is [SourceString ""]. *)
Inductive Source : Type :=
| SourceUndefined
| SourceString (text : string).

Record Script : Type := mkScript { source : Source }.

(** [SharedFunctionInfo::function_data()]: a [BytecodeArray] or anything
    else. The hunk of [ShouldFlushBytecode] ends with the cast of the data to
    a [BytecodeArray]; what the lines after the hunk answer for it is not in
    the patch, and the array carries that answer as [after_hunk]. *)
Inductive FunctionData : Type :=
| BytecodeArray (after_hunk : bool)
| OtherData.

(** [script ()] is [None] for the [undefined] value, otherwise the address of
    a [Script]. *)
Record SharedFunctionInfo : Type := mkSFI {
  function_data : FunctionData;
  script : option nat
}.

Record Heap : Type := mkHeap {
  scripts : gmap nat Script;
  sfis : gmap nat SharedFunctionInfo
}.

(** The engine-wide state the patch reads and writes: the two flags, the two
    globals [save_lazy] and [save_predictable] of [api.cc], and the heap. *)
Record Engine : Type := mkEngine {
  FLAG_lazy : bool;
  FLAG_predictable : bool;
  save_lazy : bool;
  save_predictable : bool;
  heap : Heap
}.

Definition with_heap (e : Engine) (h : Heap) : Engine :=
  mkEngine (FLAG_lazy e) (FLAG_predictable e)
           (save_lazy e) (save_predictable e) h.

(** [V8::EnableCompilationForSourcelessUse]. *)
Definition EnableCompilationForSourcelessUse (e : Engine) : Engine :=
  mkEngine false true (FLAG_lazy e) (FLAG_predictable e) (heap e).

(** [V8::DisableCompilationForSourcelessUse]. *)
Definition DisableCompilationForSourcelessUse (e : Engine) : Engine :=
  mkEngine (save_lazy e) (save_predictable e)
           (save_lazy e) (save_predictable e) (heap e).

(** [script->set_source(v)]. *)
Definition set_source (h : Heap) (sid : nat) (v : Source) : Heap :=
  mkHeap (<[sid := mkScript v]> (scripts h)) (sfis h).

(** [V8::FixSourcelessScript]: the script of the unbound script's
    [SharedFunctionInfo] gets the [undefined] value as its source.
    [Script::cast] of something that is not a script is undefined. *)
Definition FixSourcelessScript (h : Heap) (unbound_script : nat) : option Heap :=
  function_info ← sfis h !! unbound_script;
  sid ← script function_info;
  _ ← scripts h !! sid;
  Some (set_source h sid SourceUndefined).

Inductive BytecodeFlushMode : Type :=
| kDoNotFlushBytecode
| kFlushBytecode
| kStressFlushBytecode.

(** [SharedFunctionInfo::ShouldFlushBytecode] from the first line of the
    hunk on: the answer of a call that has reached
    [Object data = function_data()]. The lines between the signature and the
    hunk are not in the patch ([from_entry] below stands for them). The hunk
    ends after [BytecodeArray::cast(data)]: the answer of the lines after it
    is [after_hunk]. *)
Definition ShouldFlushBytecode (h : Heap) (sfi : SharedFunctionInfo)
    (mode : BytecodeFlushMode) : option bool :=
  match function_data sfi with
  | OtherData => Some false
  | BytecodeArray after_hunk =>
      let after_script_check :=
        match mode with
        | kStressFlushBytecode => true
        | _ => after_hunk
        end in
      match script sfi with
      | None => Some after_script_check
      | Some sid =>
          scr ← scripts h !! sid;
          match source scr with
          | SourceUndefined => Some false
          | SourceString _ => Some after_script_check
          end
      end
  end.

(** The same lines without the eight the patch adds: the hunk as it was. *)
Definition ShouldFlushBytecode_unpatched (sfi : SharedFunctionInfo)
    (mode : BytecodeFlushMode) : bool :=
  match function_data sfi with
  | OtherData => false
  | BytecodeArray after_hunk =>
      match mode with
      | kStressFlushBytecode => true
      | _ => after_hunk
      end
  end.

(** A whole call of [ShouldFlushBytecode]: the lines above the hunk either
    return a value, [before_hunk = Some r], or reach the first line of the
    hunk, whose answer [hunk] then is the answer of the call. *)
Definition from_entry (before_hunk : option bool) (hunk : option bool)
  : option bool :=
  match before_hunk with
  | Some r => Some r
  | None => hunk
  end.

(** A function: its [shared ()] info and the data property
    [class_positions_symbol], present for classes. *)
Record JSFunction : Type := mkJSFunction {
  shared : nat;
  class_positions : option (nat * nat)
}.

Section Accessors.

(** What the parts of [JSFunction::ToString] and [ParseFunction] that lie
    outside the hunks compute. *)
Variable ToString_rest : Heap → JSFunction → option string.
Variable parse_source : string → bool.

(** Modelled from the spec: the lines of the class branch after the hunk
    slice the script source between the two positions (section 4.3). *)
Definition class_source (script_source : string)
    (start_position end_position : nat) : string :=
  substring start_position (end_position - start_position) script_source.

(** [JSFunction::ToString], from the test for the class positions on. *)
Definition ToString (h : Heap) (function : JSFunction) : option string :=
  match class_positions function with
  | Some (start_position, end_position) =>
      shared_info ← sfis h !! shared function;
      sid ← script shared_info;
      scr ← scripts h !! sid;
      match source scr with
      | SourceUndefined => Some "class {}"%string
      | SourceString script_source =>
          Some (class_source script_source start_position end_position)
      end
  | None => ToString_rest h function
  end.

(** [parsing::ParseFunction]: [return false] on a script without source. *)
Definition ParseFunction (h : Heap) (shared_info : SharedFunctionInfo)
  : option bool :=
  sid ← script shared_info;
  scr ← scripts h !! sid;
  match source scr with
  | SourceUndefined => Some false
  | SourceString text => Some (parse_source text)
  end.

End Accessors.

(** Modelled from the spec: the collector reclaims the bytecode of a function
    whose [ShouldFlushBytecode] answers true (section 4.3). *)
Definition flush_bytecode (h : Heap) (mode : BytecodeFlushMode) (f : nat)
  : option Heap :=
  sfi ← sfis h !! f;
  flush ← ShouldFlushBytecode h sfi mode;
  if flush : bool
  then Some (mkHeap (scripts h) (<[f := mkSFI OtherData (script sfi)]> (sfis h)))
  else Some h.

(** The engine allocates the script of a new compilation at an unused
    address, with the text it was compiled from. *)
Definition new_script (h : Heap) (text : string) : Heap :=
  mkHeap (<[fresh (dom (scripts h)) := mkScript (SourceString text)]> (scripts h))
         (sfis h).

(** What can happen to the heap during the life of a compiled unit. *)
Inductive Op : Type :=
| OpFixSourcelessScript (unbound_script : nat)
| OpFlush (mode : BytecodeFlushMode) (f : nat)
| OpToString (function : JSFunction)
| OpParseFunction (f : nat)
| OpNewScript (text : string)
| OpEnable
| OpDisable.

Definition step (op : Op) (e : Engine) : option Engine :=
  match op with
  | OpFixSourcelessScript u => with_heap e <$> FixSourcelessScript (heap e) u
  | OpFlush mode f => with_heap e <$> flush_bytecode (heap e) mode f
  | OpToString _ => Some e
  | OpParseFunction _ => Some e
  | OpNewScript text => Some (with_heap e (new_script (heap e) text))
  | OpEnable => Some (EnableCompilationForSourcelessUse e)
  | OpDisable => Some (DisableCompilationForSourcelessUse e)
  end.

Fixpoint run (ops : list Op) (e : Engine) : option Engine :=
  match ops with
  | [] => Some e
  | op :: ops' => e' ← step op e; run ops' e'
  end.

(** The source slot of the script of a unit, as an accessor reads it. *)
Definition source_of (h : Heap) (unbound_script : nat) : option Source :=
  function_info ← sfis h !! unbound_script;
  sid ← script function_info;
  source <$> scripts h !! sid.

(** The script a unit belongs to. *)
Definition unit_script (h : Heap) (unbound_script : nat) : option nat :=
  function_info ← sfis h !! unbound_script;
  script function_info.

(** The state of a unit whose script has lost its source. *)
Definition sourceless_unit (h : Heap) (unbound sid : nat) : Prop :=
  unit_script h unbound = Some sid
  ∧ scripts h !! sid = Some (mkScript SourceUndefined).

(** A heap with one class of a sourceless script, and one with the same
    class of a script that kept its text. *)
Definition sourceless_heap : Heap :=
  mkHeap {[ 7 := mkScript SourceUndefined ]}
         {[ 1 := mkSFI (BytecodeArray true) (Some 7) ]}.

Definition sourced_heap : Heap :=
  mkHeap {[ 7 := mkScript (SourceString "x = class A {}") ]}
         {[ 1 := mkSFI (BytecodeArray true) (Some 7) ]}.

Definition class_function : JSFunction := mkJSFunction 1 (Some (4, 14)).

Definition no_rest (h : Heap) (f : JSFunction) : option string := None.

End V8.

(** ** The cache validator ([deps/v8/src/snapshot/code-serializer.cc]) *)

Module CodeSerializer.

(** A serialized cache blob: the header words [SanityCheck] reads with
    [GetMagicNumber] and [GetHeaderValue], the size of the blob and its
    payload. The source hash is still a word of the header. *)
Record SerializedCodeData : Type := mkSCD {
  magic_number : Z;
  version_hash : Z;
  source_hash : Z;
  flags_hash : Z;
  payload_length : Z;
  checksum : Z;
  size_ : Z;
  payload : list Z
}.

Inductive SanityCheckResult : Type :=
| OK
| MAGIC_NUMBER_MISMATCH
| VERSION_MISMATCH
| SOURCE_MISMATCH
| FLAGS_MISMATCH
| CHECKSUM_MISMATCH
| PAYLOAD_OUT_OF_RANGE.

Section SanityCheck.

(** Constants and helpers of V8 that the patch does not show. *)
Variable kMagicNumber : Z.
Variable Version_Hash : Z.
Variable FlagList_Hash : Z.
Variable kHeaderSize : Z.
Variable Checksum : list Z → Z.

(** Modelled from the spec: the end of [SanityCheck], which the hunk cuts off
    inside the computation of [max_payload_length]. The payload length is
    checked against the size of the blob without its header, then the
    checksum of the payload against the one in the header (section 4.4). *)
Definition check_payload (this : SerializedCodeData) (payload_length c : Z)
  : SanityCheckResult :=
  let max_payload_length := (size_ this - kHeaderSize)%Z in
  if decide (payload_length > max_payload_length)%Z then PAYLOAD_OUT_OF_RANGE
  else if decide (Checksum (payload this) ≠ c) then CHECKSUM_MISMATCH
  else OK.

(** [SerializedCodeData::SanityCheck(expected_source_hash)] after the
    patch. *)
Definition SanityCheck (this : SerializedCodeData) (expected_source_hash : Z)
  : SanityCheckResult :=
  let magic_number := magic_number this in
  if decide (magic_number ≠ kMagicNumber) then MAGIC_NUMBER_MISMATCH
  else
    let version_hash := version_hash this in
    let flags_hash := flags_hash this in
    let payload_length := payload_length this in
    let c := checksum this in
    if decide (version_hash ≠ Version_Hash) then VERSION_MISMATCH
    else if decide (flags_hash ≠ FlagList_Hash) then FLAGS_MISMATCH
    else check_payload this payload_length c.

(** The same function before the patch, with the two lines the patch
    deletes. *)
Definition SanityCheck_unpatched (this : SerializedCodeData)
    (expected_source_hash : Z) : SanityCheckResult :=
  let magic_number := magic_number this in
  if decide (magic_number ≠ kMagicNumber) then MAGIC_NUMBER_MISMATCH
  else
    let version_hash := version_hash this in
    let source_hash := source_hash this in
    let flags_hash := flags_hash this in
    let payload_length := payload_length this in
    let c := checksum this in
    if decide (version_hash ≠ Version_Hash) then VERSION_MISMATCH
    else if decide (source_hash ≠ expected_source_hash) then SOURCE_MISMATCH
    else if decide (flags_hash ≠ FlagList_Hash) then FLAGS_MISMATCH
    else check_payload this payload_length c.

End SanityCheck.

(** The blob with another source hash in its header: what serializing the
    same bytecode for another source text gives. *)
Definition with_source_hash (b : SerializedCodeData) (h : Z)
  : SerializedCodeData :=
  mkSCD (magic_number b) (version_hash b) h (flags_hash b)
        (payload_length b) (checksum b) (size_ b) (payload b).

End CodeSerializer.

(** ** The script host binding ([src/node_contextify.cc], [lib/vm.js]) *)

Module Contextify.

Import V8.

Inductive CompileOptions : Type :=
| kNoCompileOptions
| kConsumeCodeCache.

#[global] Instance CompileOptions_eq_dec : EqDecision CompileOptions.
Proof. solve_decision. Defined.

(** What [ScriptCompiler::CompileUnboundScript] leaves behind: the script (a
    [MaybeLocal], empty when the compile failed), the [rejected] field of the
    cached data, and the heap. *)
Record CompileOutcome : Type := mkOutcome {
  v8_script : option nat;
  rejected : bool;
  heap_after : Heap
}.

(** The arguments of [new ContextifyScript(...)] that the patch looks at. *)
Record NewArgs : Type := mkNewArgs {
  code : string;
  cached_data : option (list Z);
  produce_cached_data : bool;
  sourceless : bool
}.

(** The properties [New] sets on [args.This()] and the script it keeps. *)
Record ContextifyScript : Type := mkCS {
  script_ : option nat;
  cachedDataRejected : option bool;
  cachedDataProduced : option bool;
  cachedData : option (list Z)
}.

(** How [New] ends: a plain return, or the engine's compile error rethrown by
    [try_catch.ReThrow()]. No other error is raised in the function. *)
Inductive Completion : Type :=
| Returned
| Rethrown.

Definition empty_this : ContextifyScript := mkCS None None None None.

Section New.

(** The engine's compiler and cache producer: the flags are read from the
    engine state handed to them. *)
Variable CompileUnboundScript :
  Engine → string → option (list Z) → CompileOptions → CompileOutcome.
Variable CreateCodeCache : Heap → nat → option (list Z).

(** Modelled from the spec: the assignment of [compile_options] lies before
    the hunks; the compile consumes the cache when cached data is given
    (section 4.5). *)
Definition compile_options_of (a : NewArgs) : CompileOptions :=
  match cached_data a with
  | Some _ => kConsumeCodeCache
  | None => kNoCompileOptions
  end.

(** The engine state while [CompileUnboundScript] runs. *)
Definition engine_at_compile (e : Engine) (a : NewArgs) : Engine :=
  if sourceless a && produce_cached_data a
  then EnableCompilationForSourcelessUse e
  else e.

(** What the compile of a call gives. *)
Definition outcome_of (e : Engine) (a : NewArgs) : CompileOutcome :=
  CompileUnboundScript (engine_at_compile e a) (code a) (cached_data a)
                       (compile_options_of a).

(** [ContextifyScript::New], from [Context::Scope scope(parsing_context)] to
    the end. The early [return] of the second hunk is the one taken when the
    compile gave no script: the lines after it use
    [v8_script.ToLocalChecked()]. *)
Definition New (e : Engine) (a : NewArgs)
  : option (Engine * ContextifyScript * Completion) :=
  let compile_options := compile_options_of a in
  let e1 := engine_at_compile e a in
  let out := CompileUnboundScript e1 (code a) (cached_data a) compile_options in
  let e2 := with_heap e1 (heap_after out) in
  match v8_script out with
  | None => Some (e2, empty_this, Rethrown)
  | Some unbound =>
      h3 ← (if sourceless a && bool_decide (compile_options = kConsumeCodeCache)
            then if negb (rejected out)
                 then FixSourcelessScript (heap e2) unbound
                 else Some (heap e2)
            else Some (heap e2));
      let e3 := with_heap e2 h3 in
      let this :=
        match compile_options with
        | kConsumeCodeCache =>
            mkCS (Some unbound) (Some (rejected out)) None None
        | kNoCompileOptions =>
            if produce_cached_data a
            then let cached := CreateCodeCache h3 unbound in
                 mkCS (Some unbound) None (Some (bool_decide (is_Some cached)))
                      cached
            else mkCS (Some unbound) None None None
        end in
      let e4 := if sourceless a && produce_cached_data a
                then DisableCompilationForSourcelessUse e3
                else e3 in
      Some (e4, this, Returned)
  end.

End New.

(** An engine that rejects every cache and compiles the code it is given: the
    new script keeps that text as its source. *)
Definition recompiling_engine (e : Engine) (code : string)
    (cached : option (list Z)) (o : CompileOptions) : CompileOutcome :=
  let sid := fresh (dom (scripts (heap e))) in
  let f := fresh (dom (sfis (heap e))) in
  mkOutcome (Some f) true
    (mkHeap (<[sid := mkScript (SourceString code)]> (scripts (heap e)))
            (<[f := mkSFI (BytecodeArray false) (Some sid)]> (sfis (heap e)))).

(** An engine that accepts every cache: the script it deserializes has the
    text it was handed as its source. Without a cache it compiles the code. *)
Definition accepting_engine (e : Engine) (code : string)
    (cached : option (list Z)) (o : CompileOptions) : CompileOutcome :=
  let sid := fresh (dom (scripts (heap e))) in
  let f := fresh (dom (sfis (heap e))) in
  mkOutcome (Some f) false
    (mkHeap (<[sid := mkScript (SourceString code)]> (scripts (heap e)))
            (<[f := mkSFI (BytecodeArray false) (Some sid)]> (sfis (heap e)))).

(** An engine whose compile fails (a syntax error in the code). *)
Definition failing_engine (e : Engine) (code : string)
    (cached : option (list Z)) (o : CompileOptions) : CompileOutcome :=
  mkOutcome None false (heap e).

Definition no_code_cache (h : Heap) (unbound : nat) : option (list Z) := None.

Definition empty_heap : Heap := mkHeap ∅ ∅.

(** A fresh engine: lazy compilation on, predictable mode off. *)
Definition default_engine : Engine := mkEngine true false false false empty_heap.

(** Calls of the binding. *)
Definition consume_sourceless : NewArgs :=
  mkNewArgs "" (Some [192; 23; 222; 192]%Z) false true.

Definition produce_sourceless (code : string) : NewArgs :=
  mkNewArgs code None true true.

(** The engine after a sourceless call that consumed an accepted cache, and
    after some more operations on its heap. *)
Definition accepted_engine : Engine :=
  match New accepting_engine no_code_cache default_engine consume_sourceless
  with
  | Some (e, _, _) => e
  | None => default_engine
  end.

Definition later_ops : list Op :=
  [OpFlush kStressFlushBytecode 0; OpNewScript "g()"; OpEnable;
   OpFixSourcelessScript 0; OpDisable; OpFlush kFlushBytecode 0].

Definition later_engine : Engine :=
  default default_engine (run later_ops accepted_engine).

End Contextify.

(** ** The bootstrap loader ([lib/internal/bootstrap/pkg.js]) and the guard
       of [lib/internal/bootstrap/pre_execution.js] *)

Module Bootstrap.

(** A property of the [fs] objects: a native function, or [undefined]. *)
Inductive JsVal : Type :=
| JsUndefined
| JsFunction (f : nat).

(** A line written by [console.error]: a text or an object. *)
Inductive ConsoleLine : Type :=
| LineText (text : string)
| LineEnv (env : list (string * string)).

(** What the loader sees of the process: [process.argv], [process.env],
    [process.execPath], the files on disk, the open descriptors with the path
    each was opened on, the objects [require('fs')] and
    [process.binding('fs')], and what was written to stderr. *)
Record World : Type := mkWorld {
  argv : list string;
  env : list (string * string);
  execPath : string;
  disk : gmap string (list byte);
  fds : gmap Z string;
  fs : gmap string JsVal;
  binding_fs : gmap string JsVal;
  stderr : list ConsoleLine
}.

Definition set_argv (w : World) (a : list string) : World :=
  mkWorld a (env w) (execPath w) (disk w) (fds w) (fs w) (binding_fs w)
          (stderr w).

Definition set_fds (w : World) (d : gmap Z string) : World :=
  mkWorld (argv w) (env w) (execPath w) (disk w) d (fs w) (binding_fs w)
          (stderr w).

Definition set_fs (w : World) (o : gmap string JsVal) : World :=
  mkWorld (argv w) (env w) (execPath w) (disk w) (fds w) o (binding_fs w)
          (stderr w).

Definition console_error (w : World) (l : ConsoleLine) : World :=
  mkWorld (argv w) (env w) (execPath w) (disk w) (fds w) (fs w) (binding_fs w)
          (stderr w ++ [l]).

(** Reading a property of an object: an absent one is [undefined]. *)
Definition get (o : gmap string JsVal) (key : string) : JsVal :=
  default JsUndefined (o !! key).

(** [Array.prototype.splice(start, deleteCount)] without items to insert, for
    arguments that are not negative. *)
Definition splice {A} (start deleteCount : nat) (l : list A) : list A :=
  take start l ++ drop (start + deleteCount) l.

(** A literal of [readPrelude] as the build leaves it: the placeholder text,
    or the decimal numeral the patcher wrote over it. *)
Inductive Literal : Type :=
| Placeholder
| Numeral (n : N).

(** [ToInt32] of an integer: the value modulo 2^32, taken in the range from
    -2^31 to 2^31 - 1. *)
Definition ToInt32 (n : Z) : Z :=
  ((n + 2 ^ 31) mod 2 ^ 32 - 2 ^ 31)%Z.

(** [Number] of an integer: the nearest double, ties to even; [None] is
    [Infinity]. Up to 53 bits the value is exact. *)
Definition to_double (n : N) : option N :=
  let bits := N.size n in
  if (bits <=? 53)%N then Some n
  else
    let k := (bits - 53)%N in
    let q := N.shiftr n k in
    let r := N.land n (N.ones k) in
    let half := N.shiftl 1 (k - 1) in
    let q' := if (half <? r)%N || ((r =? half)%N && N.odd q)
              then (q + 1)%N else q in
    let v := N.shiftl q' k in
    if (N.size v <=? 1024)%N then Some v else None.

(** [literal | 0]: the text is converted by [Number] and the number by
    [ToInt32]. The placeholder text is not a number, and [NaN | 0] is 0; a
    numeral is read as the nearest double, and [Infinity | 0] is 0. *)
Definition or_zero (l : Literal) : Z :=
  match l with
  | Placeholder => 0%Z
  | Numeral n =>
      match to_double n with
      | Some v => ToInt32 (Z.of_N v)
      | None => 0%Z
      end
  end.

Record Baked : Type := mkBaked {
  PAYLOAD_POSITION : Literal;
  PAYLOAD_SIZE : Literal;
  PRELUDE_POSITION : Literal;
  PRELUDE_SIZE : Literal
}.

(** The script as the build compiles it in, before the patcher runs. *)
Definition unpatched : Baked :=
  mkBaked Placeholder Placeholder Placeholder Placeholder.

(** [fs.openSync(path, 'r')]: a new descriptor, or an exception when there is
    no such file. *)
Definition openSync (w : World) (path : string) : option (Z * World) :=
  _ ← disk w !! path;
  let fd := fresh (dom (fds w)) in
  Some (fd, set_fds w (<[fd := path]> (fds w))).

Definition closeSync (w : World) (fd : Z) : World :=
  set_fds w (delete fd (fds w)).

(** [Buffer.alloc(size)]: zero-filled, a [RangeError] for a negative size. *)
Definition Buffer_alloc (size : Z) : option (list byte) :=
  if decide (size < 0)%Z then None
  else Some (replicate (Z.to_nat size) Byte.x00).

(** [fs.readSync(fd, buffer, offset, length, position)]: the number of bytes
    read and the buffer afterwards, or an exception for a descriptor that is
    not open. A negative [position] reads at the descriptor's own position,
    the start of the file for a descriptor that was not read before. *)
Definition readSync (w : World) (fd : Z) (buffer : list byte)
    (offset length position : Z) : option (nat * list byte) :=
  path ← fds w !! fd;
  content ← disk w !! path;
  let data := take (Z.to_nat length) (drop (Z.to_nat position) content) in
  Some (List.length data,
        take (Z.to_nat offset) buffer ++ data
          ++ drop (Z.to_nat offset + List.length data) buffer).

(** The options [new vm.Script(code, options)] passes on to
    [ContextifyScript]: [lib/vm.js] defaults [produceCachedData] and
    [sourceless] to [false]. *)
Record ScriptOptions : Type := mkScriptOptions {
  filename : string;
  cachedData : option (list Z);
  produceCachedData : bool;
  sourceless : bool
}.

Definition vm_Script_options (filename : string) : ScriptOptions :=
  mkScriptOptions filename None false false.

(** An argument of the call of the prelude function. *)
Inductive Arg : Type :=
| ArgProcess
| ArgRequire
| ArgConsole
| ArgNumber (n : Z).

(** How [readPrelude] ends: [return { undoPatch: true }]; [process.exit];
    an exception of [Buffer.alloc] or [fs.readSync]; or the call of the
    function that running the prelude script gives, whose value it
    returns. *)
Inductive Result : Type :=
| ReturnUndoPatch
| ProcessExit (code : Z)
| Throw
| PreludeCall (prelude : list byte) (options : ScriptOptions) (args : list Arg).

Definition decimal (n : Z) : string :=
  NilZero.string_of_int (Z.to_int n).

(** [function readPrelude (fd)]. *)
Definition readPrelude (b : Baked) (fd : Z) (w : World) : World * Result :=
  let PAYLOAD_POSITION := or_zero (PAYLOAD_POSITION b) in
  let PAYLOAD_SIZE := or_zero (PAYLOAD_SIZE b) in
  let PRELUDE_POSITION := or_zero (PRELUDE_POSITION b) in
  let PRELUDE_SIZE := or_zero (PRELUDE_SIZE b) in
  if decide (PRELUDE_POSITION = 0%Z) then
    (set_argv w (splice 1 1 (argv w)), ReturnUndoPatch)
  else
    match Buffer_alloc PRELUDE_SIZE with
    | None => (w, Throw)
    | Some prelude =>
        match readSync w fd prelude 0 PRELUDE_SIZE PRELUDE_POSITION with
        | None => (w, Throw)
        | Some (read, prelude) =>
            if decide (Z.of_nat read ≠ PRELUDE_SIZE) then
              let w1 :=
                console_error w
                  (LineText ("Pkg: Error reading from file. Expected: "
                             +:+ decimal PRELUDE_SIZE +:+ " Actual: "
                             +:+ decimal (Z.of_nat read))) in
              let w2 := console_error w1 (LineEnv (env w1)) in
              (w2, ProcessExit 1)
            else
              (w, PreludeCall prelude
                    (vm_Script_options "pkg/prelude/bootstrap.js")
                    [ArgProcess; ArgRequire; ArgConsole; ArgNumber fd;
                     ArgNumber PAYLOAD_POSITION; ArgNumber PAYLOAD_SIZE])
        end
    end.


(** The bytes of the executable in the range the two prelude literals
    name. *)
Definition prelude_range (b : Baked) (image : list byte) : list byte :=
  take (Z.to_nat (or_zero (PRELUDE_SIZE b)))
       (drop (Z.to_nat (or_zero (PRELUDE_POSITION b))) image).

(** The six arguments of the call of the prelude function. *)
Definition prelude_args (b : Baked) (fd : Z) : list Arg :=
  [ArgProcess; ArgRequire; ArgConsole; ArgNumber fd;
   ArgNumber (or_zero (PAYLOAD_POSITION b));
   ArgNumber (or_zero (PAYLOAD_SIZE b))].

(** What a short read of [read] bytes writes to stderr. *)
Definition short_read_report (b : Baked) (w : World) (read : nat)
  : list ConsoleLine :=
  [LineText ("Pkg: Error reading from file. Expected: "
             +:+ decimal (or_zero (PRELUDE_SIZE b)) +:+ " Actual: "
             +:+ decimal (Z.of_nat read));
   LineEnv (env w)].

(** The body of [if (result && result.undoPatch)]. *)
Definition undo_patch (fd : Z) (w : World) : World :=
  let bindingFs := binding_fs w in
  let w1 :=
    set_fs w (<["internalModuleStat"%string :=
                get bindingFs "internalModuleStat"]> (fs w)) in
  let w2 :=
    set_fs w1 (<["internalModuleReadJSON"%string :=
                 get bindingFs "internalModuleReadJSON"]> (fs w1)) in
  closeSync w2 fd.

(** How the loader ends. *)
Inductive Outcome : Type :=
| Finished
| Exited (code : Z)
| Threw.

Section Loader.

(** The prelude is supplied from outside: what calling it does to the
    process, and whether its value is an object with a true [undoPatch]. *)
Variable run_prelude :
  list byte → ScriptOptions → list Arg → World → World * bool.

(** The second function of [pkg.js]: open the executable, read the prelude,
    undo the patch when asked to. *)
Definition load (b : Baked) (w : World) : World * Outcome :=
  match openSync w (execPath w) with
  | None => (w, Threw)
  | Some (fd, w1) =>
      match readPrelude b fd w1 with
      | (w2, ReturnUndoPatch) => (undo_patch fd w2, Finished)
      | (w2, ProcessExit code) => (w2, Exited code)
      | (w2, Throw) => (w2, Threw)
      | (w2, PreludeCall prelude options args) =>
          let r := run_prelude prelude options args w2 in
          (if r.2 then undo_patch fd r.1 else r.1, Finished)
      end
  end.

(** What the functions of the process do that [pre_execution.js] calls and
    the patch does not show. *)
Variable path_resolve : string → string.
Variable remaining_preparation : World → World.

(** [process.argv[0] = x]: on an empty array the assignment adds the
    element. *)
Definition set_argv0 (x : string) (a : list string) : list string :=
  match a with
  | [] => [x]
  | _ :: rest => x :: rest
  end.

(** [patchProcessObject(expandArgv1)], from [process.argv[0] =
    process.execPath] on: the expansion of [process.argv[1]] into a full path
    is skipped for the placeholder token. *)
Definition patchProcessObject (expandArgv1 : bool) (w : World) : World :=
  let w1 := set_argv w (set_argv0 (execPath w) (argv w)) in
  match argv w1 !! 1 with
  | Some argv1 =>
      if expandArgv1
         && bool_decide (argv1 ≠ ""%string)
         && negb (String.prefix "-" argv1)
         && bool_decide (argv1 ≠ "PKG_DUMMY_ENTRYPOINT"%string)
      then set_argv w1 (<[1 := path_resolve argv1]> (argv w1))
      else w1
  | None => w1
  end.

(** The state of the module [pre_execution.js] and of the process. *)
Record PreExecution : Type := mkPre {
  _alreadyPrepared : bool;
  world : World
}.

(** [let _alreadyPrepared = false;] *)
Definition process_start (w : World) : PreExecution := mkPre false w.

(** [prepareMainThreadExecution(expandArgv1 = false)]. *)
Definition prepareMainThreadExecution (expandArgv1 : bool) (s : PreExecution)
  : PreExecution :=
  if _alreadyPrepared s then s
  else mkPre true
         (remaining_preparation (patchProcessObject expandArgv1 (world s))).

(** The whole of [pkg.js]. *)
Definition pkg_js (b : Baked) (s : PreExecution) : PreExecution * Outcome :=
  let s1 := prepareMainThreadExecution true s in
  let r := load b (world s1) in
  (mkPre (_alreadyPrepared s1) r.1, r.2).

(** The wrappers of [lib/internal/modules/cjs/loader.js] and
    [package_json_reader.js]: [require('fs').internalModuleStat(f)], a
    [TypeError] when the property is not a function. The functions are
    applied by [call]. *)
Variable R : Type.
Variable call : nat → string → R.

Definition call_property (o : gmap string JsVal) (key f : string) : option R :=
  match get o key with
  | JsFunction g => Some (call g f)
  | JsUndefined => None
  end.

Definition internalModuleStat (w : World) (f : string) : option R :=
  call_property (fs w) "internalModuleStat" f.

Definition internalModuleReadJSON (w : World) (f : string) : option R :=
  call_property (fs w) "internalModuleReadJSON" f.

End Loader.

(** The scenario of the spec: an engine binary of 1000 bytes, a prelude of 50
    bytes at offset 1000, a payload of 200 bytes at offset 1050. *)
Definition scenario_baked : Baked :=
  mkBaked (Numeral 1050) (Numeral 200) (Numeral 1000) (Numeral 50).

Definition scenario_image (B P A : byte) : list byte :=
  replicate 1000 B ++ replicate 50 P ++ replicate 200 A.

(** A prelude that does nothing and returns nothing. *)
Definition idle_prelude (prelude : list byte) (options : ScriptOptions)
    (args : list Arg) (w : World) : World * bool := (w, false).

Definition scenario_world (image : list byte) : World :=
  mkWorld ["/app"%string; "PKG_DUMMY_ENTRYPOINT"%string; "run"%string]
          [("HOME"%string, "/root"%string)]
          "/app"%string
          {["/app"%string := image]}
          {[3%Z := "/app"%string]}
          ∅
          {["internalModuleStat"%string := JsFunction 1;
            "internalModuleReadJSON"%string := JsFunction 2]}
          [].

End Bootstrap.

(** ** The package reader of [lib/internal/modules/cjs/loader.js] *)

Module CjsLoader.

Import Bootstrap.

(** A value of [packageJsonCache]: [false] for a directory without a
    [package.json], or the data of one. *)
Inductive Cached (P : Type) : Type :=
| CachedFalse
| CachedPackage (data : P).

Arguments CachedFalse {P}.
Arguments CachedPackage {P} data.

Section ReadPackage.

Variable P : Type.

(** [path.resolve(requestPath, 'package.json')] and
    [path.toNamespacedPath]. *)
Variable json_path : string → string.
Variable toNamespacedPath : string → string.

(** What the native functions behind the properties of [fs] return: a JSON
    text, or [undefined] ([None]). *)
Variable call : nat → string → option string.

(** The rest of [readPackage], after the hunk: from the JSON text to the
    value it returns and the cache it leaves (an exception is [None]). *)
Variable parse_package :
  string → string → gmap string (Cached P) → option (Cached P * gmap string (Cached P)).

(** [readPackage(requestPath)], as far as the hunk shows it: the cache, the
    read through [require('fs').internalModuleReadJSON], the entry [false]
    for a missing file. An exception is [None]. *)
Definition readPackage (w : World) (packageJsonCache : gmap string (Cached P))
    (requestPath : string)
  : option (Cached P * gmap string (Cached P)) :=
  let jsonPath := json_path requestPath in
  match packageJsonCache !! jsonPath with
  | Some existing => Some (existing, packageJsonCache)
  | None =>
      json ← internalModuleReadJSON (option string) call w
                (toNamespacedPath jsonPath);
      match json with
      | None =>
          Some (CachedFalse, <[jsonPath := CachedFalse]> packageJsonCache)
      | Some text => parse_package jsonPath text packageJsonCache
      end
  end.

End ReadPackage.

(** A native reader that knows one file, and a process whose [fs] carries
    it. *)
Definition one_file_reader (g : nat) (f : string) : option string :=
  if decide (f = "/app/node_modules/x/package.json"%string)
  then Some "{}"%string else None.

Definition store_rest (jsonPath json : string)
    (c : gmap string (Cached string))
  : option (Cached string * gmap string (Cached string)) :=
  Some (CachedPackage json, <[jsonPath := CachedPackage json]> c).

Definition package_json (requestPath : string) : string :=
  requestPath +:+ "/package.json".

Definition patched_world : World :=
  mkWorld ["/app"%string] [] "/app"%string ∅ ∅
          {["internalModuleReadJSON"%string := JsFunction 2]}
          {["internalModuleReadJSON"%string := JsFunction 2]}
          [].

End CjsLoader.

(** ** The constructor of [vm.Script] ([lib/vm.js]) *)

Module VmScript.

(** [new vm.Script(code, options)]: the constructor passes [cachedData],
    [produceCachedData] and, as its last argument, [sourceless] on to
    [ContextifyScript], which reads it with [args[7]->IsTrue()]. *)
Definition Script_args (code : string) (options : Bootstrap.ScriptOptions)
  : Contextify.NewArgs :=
  Contextify.mkNewArgs code (Bootstrap.cachedData options)
    (Bootstrap.produceCachedData options) (Bootstrap.sourceless options).

(** The compile of the prelude by [readPrelude]. *)
Definition prelude_compile (code : string) : Contextify.NewArgs :=
  Script_args code (Bootstrap.vm_Script_options "pkg/prelude/bootstrap.js").

End VmScript.

(** ** The build script ([src/lib/build.ts]) *)

Module Build.

(** [\d] of a regular expression without the [u] flag. *)
Definition is_digit (c : ascii) : bool :=
  (48 <=? nat_of_ascii c) && (nat_of_ascii c <=? 57).

(** The longest prefix of digits: what [\d+] takes, when it is not empty. *)
Fixpoint leading_digits (s : string) : string :=
  match s with
  | EmptyString => EmptyString
  | String c s' =>
      if is_digit c then String c (leading_digits s') else EmptyString
  end.

(** The capture group of [nodeVersion.match(/^v?(\d+)/)], [None] when there
    is no match. After a leading [v] that is followed by no digit the match
    without the [v] fails as well, since [v] is no digit. *)
Definition match_version (nodeVersion : string) : option string :=
  let after_v :=
    match nodeVersion with
    | String "v" s' => s'
    | _ => nodeVersion
    end in
  match leading_digits after_v with
  | EmptyString => None
  | digits => Some digits
  end.

(** The mathematical value of a string of digits. *)
Definition digits_value (digits : string) : N :=
  match NilEmpty.uint_of_string digits with
  | Some u => N.of_uint u
  | None => 0%N
  end.

(** [function getMajor(nodeVersion)]: [Number(version) | 0], with [0] for
    the version when there is no match. *)
Definition getMajor (nodeVersion : string) : Z :=
  match match_version nodeVersion with
  | None => 0%Z
  | Some version =>
      match Bootstrap.to_double (digits_value version) with
      | Some v => Bootstrap.ToInt32 (Z.of_N v)
      | None => 0%Z
      end
  end.

Section Host.

(** [hostPlatform] and [hostArch] of [./system]; [nodePath] and
    [patchesPath]; [path.join] on them. *)
Variable hostPlatform : string.
Variable hostArch : string.
Variable nodePath : string.
Variable patchesPath : string.
Variable path_join : string → string → string.

(** [function getConfigureArgs(major, targetPlatform)]. *)
Definition getConfigureArgs (major : Z) (targetPlatform : string)
  : list string :=
  let args := [] in
  let args := args ++ ["--without-inspector"%string] in
  let args :=
    if decide (targetPlatform = "linuxstatic"%string)
    then args ++ ["--fully-static"%string] else args in
  let args :=
    if decide (major >= 12)%Z
    then if decide (hostPlatform ≠ "win"%string)
         then args ++ ["--enable-lto"%string] else args
    else args in
  let args := args ++ ["--without-node-options"%string] in
  let args := args ++ ["--without-dtrace"%string] in
  let args := args ++ ["--without-etw"%string] in
  let args := args ++ ["--without-npm"%string] in
  let args := args ++ ["--without-intl"%string] in
  let args := args ++ ["--without-corepack"%string] in
  let args := args ++ ["--without-amaro"%string] in
  let args := args ++ ["--without-sqlite"%string] in
  let args := args ++ ["--experimental-enable-pointer-compression"%string] in
  let args := args ++ ["--v8-disable-object-print"%string] in
  let args := args ++ ["--v8-enable-snapshot-compression"%string] in
  let args :=
    if decide (targetPlatform = "macos"%string)
    then args ++ ["--shared-zlib"%string] else args in
  let args := args ++ ["--tag"%string] in
  let args := args ++ ["Valetudo"%string] in
  args.

(** What [compileOnWindows] spawns and, when the command succeeds, returns:
    the arguments of [cmd], the variable [config_flags] of its environment,
    the path of the binary. *)
Record WindowsBuild : Type := mkWindowsBuild {
  cmd_args : list string;
  config_flags : list string;
  config_flags_env : string;
  output : string
}.

(** [async function compileOnWindows(nodeVersion, targetArch,
    targetPlatform)]. *)
Definition compileOnWindows (nodeVersion targetArch targetPlatform : string)
  : WindowsBuild :=
  let args := ["/c"; "vcbuild.bat"; targetArch]%string in
  let major := getMajor nodeVersion in
  let config_flags := getConfigureArgs major targetPlatform in
  let args := args ++ ["noetw"%string] in
  let args :=
    if decide (major <= 10)%Z then args ++ ["noperfctr"%string] else args in
  let args :=
    if decide (major >= 12)%Z then args ++ ["ltcg"%string] else args in
  let config_flags :=
    if decide (hostArch ≠ targetArch
               ∧ "--with-intl=full-icu"%string ∉ config_flags)
    then config_flags ++ ["--without-intl"%string] else config_flags in
  mkWindowsBuild args config_flags (String.concat " " config_flags)
    (if decide (major <= 10)%Z
     then path_join nodePath "Release/node.exe"
     else path_join nodePath "out/Release/node.exe").

(** A value of [patches.json] under a version: nothing, an array of patch
    names, or an object with some of the keys [commit], [patches] and
    [sameAs]. (An object with none of them behaves like any other value that
    is neither an array nor has these keys.) *)
Inductive JsonValue : Type :=
| JUndefined
| JArray (items : list string)
| JObject (commit : option string) (patches : option (list string))
          (sameAs : option string).

(** A spawned command. *)
Record Command : Type := mkCommand {
  program : string;
  arguments : list string;
  cwd : string
}.

(** How a function of the build ends: normally, with the rejection of a
    spawned command, or with a [TypeError]. *)
Inductive Ending : Type :=
| Done
| SpawnFailed
| ThrewTypeError.

Variable patchesJson : string → JsonValue.

(** Whether a spawned command succeeds. *)
Variable spawn_ok : Command → bool.

(** [await spawn(...)] in a sequence: the commands in order until one is
    rejected. *)
Fixpoint spawn_all (commands : list Command) : list Command * Ending :=
  match commands with
  | [] => ([], Done)
  | c :: rest =>
      if spawn_ok c
      then let r := spawn_all rest in (c :: r.1, r.2)
      else ([c], SpawnFailed)
  end.

(** The commit [gitResetHard] resets to: ['commit' in patches &&
    patches.commit ? patches.commit : nodeVersion]. *)
Definition reset_commit (nodeVersion : string) : option string :=
  match patchesJson nodeVersion with
  | JUndefined => None
  | JArray _ => Some nodeVersion
  | JObject commit _ _ =>
      match commit with
      | Some c => if decide (c ≠ ""%string) then Some c else Some nodeVersion
      | None => Some nodeVersion
      end
  end.

(** [async function gitResetHard(nodeVersion)]. *)
Definition gitResetHard (nodeVersion : string) : list Command * Ending :=
  match reset_commit nodeVersion with
  | None => ([], ThrewTypeError)
  | Some commit =>
      spawn_all
        [mkCommand "git" ["--work-tree"; "."; "reset"; "--hard"; commit]%string
                   nodePath]
  end.

(** The names [applyPatches] iterates over; [None] when ['patches' in
    storedPatches] or the [for ... of] throws. *)
Definition stored_patches (nodeVersion : string) : option (list string) :=
  match patchesJson nodeVersion with
  | JUndefined => None
  | JArray items => Some items
  | JObject _ (Some items) _ => Some items
  | JObject _ None None => None
  | JObject _ None (Some sameAs) =>
      match patchesJson sameAs with
      | JArray items => Some items
      | _ => None
      end
  end.

Definition patch_command (patch : string) : Command :=
  mkCommand "patch" ["-p1"%string; "-i"%string; path_join patchesPath patch]
            nodePath.

(** [async function applyPatches(nodeVersion)]. *)
Definition applyPatches (nodeVersion : string) : list Command * Ending :=
  match stored_patches nodeVersion with
  | None => ([], ThrewTypeError)
  | Some patches => spawn_all (patch_command <$> patches)
  end.

(** Whether [fs.writeFile] on a path succeeds. *)
Variable write_ok : string → bool.

Definition wasmFilesToNeuter : list string :=
  ["deps/cjs-module-lexer/src/lib/lexer.wasm";
   "deps/undici/src/lib/llhttp/llhttp.wasm";
   "deps/undici/src/lib/llhttp/llhttp_simd.wasm"]%string.

(** The loop of [nullWasmFiles] over the files that are left: an existing
    file is overwritten with one zero byte, a failed write is thrown on. *)
Fixpoint null_files (files : list string) (disk : gmap string (list byte))
  : gmap string (list byte) * bool :=
  match files with
  | [] => (disk, true)
  | relativePath :: rest =>
      let fullPath := path_join nodePath relativePath in
      match disk !! fullPath with
      | Some _ =>
          if write_ok fullPath
          then null_files rest (<[fullPath := [x00]]> disk)
          else (disk, false)
      | None => null_files rest disk
      end
  end.

(** [async function nullWasmFiles()]. *)
Definition nullWasmFiles (disk : gmap string (list byte))
  : gmap string (list byte) * bool :=
  null_files wasmFilesToNeuter disk.

End Host.

(** The decimal numeral of a number. *)
Definition numeral (n : N) : string := NilZero.string_of_uint (N.to_uint n).

(** A [patches.json] and hosts to run the build on. *)
Definition sample_patches (version : string) : JsonValue :=
  if decide (version = "v14.16.0"%string)
  then JArray ["node.v14.16.0.cpp.patch"%string]
  else if decide (version = "v14.16.1"%string)
  then JObject None None (Some "v14.16.0"%string)
  else if decide (version = "v14.17.0"%string)
  then JObject None None (Some "v14.16.1"%string)
  else if decide (version = "v16.0.0"%string)
  then JObject (Some "abc123"%string) (Some ["a.patch"; "b.patch"]%string) None
  else if decide (version = "v16.1.0"%string)
  then JObject None None (Some "v16.0.0"%string)
  else JUndefined.

Definition posix_join (a b : string) : string := a +:+ "/" +:+ b.

Definition all_ok (c : Command) : bool := true.

(** A version with three patches, and a [patch] that fails on the second. *)
Definition three_patches (version : string) : JsonValue :=
  JArray ["a.patch"; "b.patch"; "c.patch"]%string.

Definition rejects_b (c : Command) : bool :=
  bool_decide (arguments c ≠ ["-p1"; "-i"; "/patches/b.patch"]%string).

End Build.

(** * Properties *)

(** ** The argv relay launcher *)

Module LauncherFacts.

Import Launcher.

Lemma strlen2_packed (s rest : list ascii) :
  NUL ∉ s → strlen2 (s ++ NUL :: rest) = Some (length s).
Proof.
  induction s as [|ch s IH]; cbn [app strlen2 length]; intros Hs.
  - by rewrite decide_True.
  - apply not_elem_of_cons in Hs as [Hch Hs].
    rewrite decide_False by done. by rewrite IH.
Qed.

Lemma c_str_packed (s rest : list ascii) :
  NUL ∉ s → c_str (s ++ NUL :: rest) = s.
Proof.
  induction s as [|ch s IH]; cbn [app c_str]; intros Hs.
  - by rewrite decide_True.
  - apply not_elem_of_cons in Hs as [Hch Hs].
    rewrite decide_False by done. by rewrite IH.
Qed.

Lemma c_str_no_NUL (p : cptr) : NUL ∉ c_str p.
Proof.
  induction p as [|ch p IH]; cbn [c_str]; [apply not_elem_of_nil|].
  case_decide; [apply not_elem_of_nil|].
  apply not_elem_of_cons. split; [congruence | done].
Qed.

(** A terminated pointer is its C string, the terminator and a remainder. *)
Lemma terminated_split (p : cptr) :
  terminated p → ∃ rest, p = c_str p ++ NUL :: rest.
Proof.
  unfold terminated. induction p as [|ch p IH]; intros Hp.
  - by apply elem_of_nil in Hp.
  - cbn [c_str]. case_decide as Hch.
    + exists p. by rewrite Hch.
    + apply elem_of_cons in Hp as [Hp|Hp]; [congruence|].
      destruct (IH Hp) as [rest Hrest]. exists rest.
      cbn [app]. by rewrite <- Hrest.
Qed.

Lemma strlen_terminated (p : cptr) :
  terminated p → strlen p = Some (length (c_str p)).
Proof.
  intros Hp. destruct (terminated_split p Hp) as [rest Hrest].
  unfold strlen. rewrite Hrest at 1.
  apply strlen2_packed, c_str_no_NUL.
Qed.

(** [strlen2] answers only inside the object, with the length of the string. *)
Lemma strlen2_Some (p : cptr) (n : nat) :
  strlen2 p = Some n → n = length (c_str p) ∧ n < length p.
Proof.
  revert n. induction p as [|ch p IH]; cbn [strlen2 c_str length];
    intros n Hn; [done|].
  case_decide.
  - injection Hn as <-. simpl. lia.
  - destruct (strlen2 p) as [k|] eqn:Hk; simpl in Hn; [|done].
    injection Hn as <-. destruct (IH k eq_refl) as [-> ?]. simpl. lia.
Qed.

Lemma packed_cons (s : list ascii) (strings : list (list ascii)) :
  packed (s :: strings) = s ++ NUL :: packed strings.
Proof. unfold packed. simpl. by rewrite <- app_assoc. Qed.

Lemma packed_app (l1 l2 : list (list ascii)) :
  packed (l1 ++ l2) = packed l1 ++ packed l2.
Proof.
  induction l1 as [|s l1 IH]; [done|].
  cbn [app]. rewrite !packed_cons, IH. by rewrite <- app_assoc.
Qed.

(** The first loop of [adjacent] computes the size of the packed strings. *)
Lemma adjacent_size_packed (argv : list cptr) :
  Forall terminated argv →
  adjacent_size argv = Some (length (packed (c_str <$> argv))).
Proof.
  induction 1 as [|p argv Hp _ IH]; [done|].
  cbn [adjacent_size]. rewrite (strlen_terminated p Hp). cbn [mbind option_bind].
  rewrite IH. cbn [mbind option_bind].
  rewrite fmap_cons, packed_cons, length_app. cbn [length]. f_equal. lia.
Qed.

(** [memcpy] of a terminated string over the bytes after [pre]. *)
Lemma memcpy_string (pre j1 post s rest : list ascii) :
  length j1 = length s + 1 →
  memcpy (pre ++ j1 ++ post) (length pre) (s ++ NUL :: rest) (length s + 1)
  = Some (pre ++ (s ++ [NUL]) ++ post).
Proof.
  intros Hj1. unfold memcpy. rewrite decide_True.
  - f_equal. rewrite take_app_length. f_equal.
    rewrite (cons_middle NUL s rest), app_assoc.
    rewrite take_app_length' by (rewrite length_app; simpl; lia).
    f_equal. rewrite drop_app_add.
    rewrite <- Hj1, drop_app_length. done.
  - rewrite !length_app. simpl. lia.
Qed.

(** The second loop of [adjacent] overwrites exactly the bytes after [pre]
    that the strings need, and leaves every pointer at the start of its
    copy. *)
Lemma adjacent_copy_packed (argv : list cptr) :
  Forall terminated argv →
  ∀ pre junk post : list ascii,
    length junk = length (packed (c_str <$> argv)) →
    adjacent_copy argv (pre ++ junk ++ post) (length pre)
    = Some (pre ++ packed (c_str <$> argv) ++ post,
            positions (length pre) (c_str <$> argv)).
Proof.
  induction 1 as [|p argv Hp _ IH]; intros pre junk post Hlen.
  - destruct junk; [done | simpl in Hlen; lia].
  - destruct (terminated_split p Hp) as [rest Hrest].
    pose proof (c_str_no_NUL p) as Hno.
    rewrite fmap_cons in *.
    remember (c_str p) as s eqn:Hs. clear Hs Hp. subst p.
    rewrite packed_cons in *. rewrite length_app in Hlen. simpl in Hlen.
    cbn [positions adjacent_copy].
    unfold strlen at 1. rewrite strlen2_packed by done.
    cbn [mbind option_bind].
    rewrite <- (take_drop (length s + 1) junk), <- (app_assoc _ _ post).
    rewrite memcpy_string by (rewrite length_take; lia).
    cbn [mbind option_bind].
    rewrite drop_app_length, <- (app_assoc s [NUL]).
    cbn [app]. rewrite strlen2_packed by done.
    cbn [mbind option_bind].
    replace (length pre + (length s + 1)) with (length (pre ++ s ++ [NUL]))
      by (rewrite !length_app; simpl; lia).
    rewrite (cons_middle NUL s), !app_assoc, <- (app_assoc _ _ post).
    rewrite IH by (rewrite length_drop; lia).
    cbn [mbind option_bind fst snd]. f_equal. f_equal.
    rewrite <- !app_assoc. done.
Qed.

(** [adjacent] hands [node::Start] one block that holds the strings of its
    arguments one after the other, and pointers to their starts. *)
Lemma adjacent_packed (fill : ascii) (argv : list cptr) :
  Forall terminated argv →
  adjacent fill (length argv) argv
  = Some (mkStartCall (length argv) (packed (c_str <$> argv))
                      (positions 0 (c_str <$> argv))).
Proof.
  intros Hargv. unfold adjacent.
  rewrite decide_True by done. rewrite firstn_all. cbn zeta.
  rewrite (adjacent_size_packed argv Hargv). cbn [mbind option_bind].
  pose proof (adjacent_copy_packed argv Hargv []
                (replicate (length (packed (c_str <$> argv))) fill) []
                (length_replicate _ _)) as Hcopy.
  rewrite !app_nil_r in Hcopy. cbn [app length] in Hcopy.
  rewrite Hcopy. done.
Qed.

(** Reading the packed strings back through the pointers. *)
Lemma c_str_positions (strings : list (list ascii)) :
  Forall (λ s, NUL ∉ s) strings →
  ∀ pre : list ascii,
    (λ pos, c_str (drop pos (pre ++ packed strings)))
      <$> positions (length pre) strings
    = strings.
Proof.
  induction 1 as [|s strings Hs _ IH]; intros pre; [done|].
  cbn [positions fmap list_fmap]. rewrite packed_cons. f_equal.
  - rewrite drop_app_length. by apply c_str_packed.
  - replace (length pre + (length s + 1)) with (length (pre ++ s ++ [NUL]))
      by (rewrite !length_app; simpl; lia).
    replace (pre ++ s ++ NUL :: packed strings)
      with ((pre ++ s ++ [NUL]) ++ packed strings)
      by (by rewrite <- !app_assoc).
    apply IH.
Qed.

Lemma start_strings_packed (argc : nat) (strings : list (list ascii)) :
  Forall (λ s, NUL ∉ s) strings →
  start_strings (mkStartCall argc (packed strings) (positions 0 strings))
  = strings.
Proof.
  intros Hs. unfold start_strings. cbn [start_args start_argv].
  exact (c_str_positions strings Hs []).
Qed.

Lemma nargv_put_Some (capacity : nat) (nargv : list cptr) (p : cptr) :
  length nargv < capacity → nargv_put capacity nargv p = Some (nargv ++ [p]).
Proof. intros. unfold nargv_put. by rewrite decide_True. Qed.

(** A store past the end of [nargv] is undefined. *)
Lemma nargv_put_None (capacity : nat) (nargv : list cptr) (p : cptr) :
  capacity ≤ length nargv → nargv_put capacity nargv p = None.
Proof. intros. unfold nargv_put. rewrite decide_False; [done | lia]. Qed.

(** The scan never stops for lack of fuel: any fuel above the length of the
    block gives the same result. *)
Lemma scan_bakery_fuel (f1 f2 capacity : nat) (nargv : list cptr)
    (bakery : cptr) :
  length bakery < f1 → length bakery < f2 →
  scan_bakery f1 capacity nargv bakery = scan_bakery f2 capacity nargv bakery.
Proof.
  revert f2 nargv bakery.
  induction f1 as [|f1 IH]; intros f2 nargv bakery H1 H2; [lia|].
  destruct f2 as [|f2]; [lia|]. cbn [scan_bakery].
  destruct (strlen2 bakery) as [width|] eqn:Hw; [|done].
  cbn [mbind option_bind]. case_decide; [done|].
  destruct (nargv_put capacity nargv bakery) as [nargv1|]; [|done].
  cbn [mbind option_bind].
  apply strlen2_Some in Hw as [_ Hw].
  apply IH; rewrite length_drop; lia.
Qed.

Lemma marker_block_cons (m : list ascii) (ms : list (list ascii))
    (tail : list ascii) :
  marker_block (m :: ms) tail = m ++ NUL :: marker_block ms tail.
Proof. unfold marker_block. rewrite packed_cons, <- app_assoc. done. Qed.

(** On a block that holds [markers] the scan stores one pointer for each of
    them and stops at the empty string. *)
Lemma scan_bakery_markers (capacity : nat) (tail : list ascii)
    (markers : list (list ascii)) :
  Forall marker markers →
  ∀ (fuel : nat) (nargv : list cptr),
    length markers < fuel →
    length nargv + length markers ≤ capacity →
    scan_bakery fuel capacity nargv (marker_block markers tail)
    = Some (nargv ++ marker_ptrs markers tail).
Proof.
  induction 1 as [|m ms [Hne Hno] _ IH]; intros fuel nargv Hfuel Hcap.
  - destruct fuel as [|fuel]; [simpl in Hfuel; lia|].
    cbn [scan_bakery marker_ptrs]. unfold marker_block, packed.
    cbn [fmap list_fmap mjoin list_join app strlen2].
    rewrite decide_True by done. cbn [mbind option_bind].
    rewrite decide_True by done. by rewrite app_nil_r.
  - destruct fuel as [|fuel]; [simpl in Hfuel; lia|].
    cbn [length] in Hfuel, Hcap.
    cbn [scan_bakery marker_ptrs]. rewrite marker_block_cons.
    rewrite strlen2_packed by done. cbn [mbind option_bind].
    rewrite decide_False by (destruct m; [done | simpl; lia]).
    rewrite nargv_put_Some by lia. cbn [mbind option_bind].
    rewrite (cons_middle NUL m), app_assoc.
    rewrite drop_app_length' by (rewrite length_app; simpl; lia).
    rewrite IH by (rewrite ?length_app; simpl; lia).
    by rewrite <- app_assoc.
Qed.

Lemma marker_ptrs_c_str (tail : list ascii) (markers : list (list ascii)) :
  Forall marker markers → c_str <$> marker_ptrs markers tail = markers.
Proof.
  induction 1 as [|m ms [Hne Hno] _ IH]; [done|].
  cbn [marker_ptrs fmap list_fmap]. rewrite marker_block_cons.
  rewrite c_str_packed by done. f_equal. exact IH.
Qed.

Lemma marker_ptrs_terminated (tail : list ascii)
    (markers : list (list ascii)) :
  Forall terminated (marker_ptrs markers tail).
Proof.
  induction markers as [|m ms IH]; [constructor|].
  cbn [marker_ptrs]. constructor; [|exact IH].
  unfold terminated. rewrite marker_block_cons.
  apply elem_of_app. right. apply elem_of_cons. by left.
Qed.

Lemma marker_ptrs_length (tail : list ascii) (markers : list (list ascii)) :
  length (marker_ptrs markers tail) = length markers.
Proof. induction markers as [|m ms IH]; [done|]. simpl. by rewrite IH. Qed.

Lemma marker_block_length (tail : list ascii) (markers : list (list ascii)) :
  length markers < length (marker_block markers tail).
Proof.
  induction markers as [|m ms IH].
  - unfold marker_block. simpl. lia.
  - rewrite marker_block_cons, length_app. simpl. lia.
Qed.

Lemma copy_rest_Some (capacity : nat) (rest nargv : list cptr) :
  length nargv + length rest ≤ capacity →
  copy_rest capacity nargv rest = Some (nargv ++ rest).
Proof.
  revert nargv. induction rest as [|p rest IH]; intros nargv Hcap.
  - by rewrite app_nil_r.
  - cbn [length] in Hcap. cbn [copy_rest].
    rewrite nargv_put_Some by lia. cbn [mbind option_bind].
    rewrite IH by (rewrite length_app; simpl; lia).
    by rewrite <- app_assoc.
Qed.

(** [should_set_dummy] answers whether the invocation is direct. *)
Lemma should_set_dummy_direct (getenv : string → option string) :
  should_set_dummy getenv = bool_decide (¬ self_invoked getenv).
Proof.
  unfold should_set_dummy, self_invoked.
  destruct (getenv "PKG_EXECPATH"%string) as [v|].
  - apply bool_decide_ext. split; [intros Hv [= ->]; done | intros Hv ->; done].
  - symmetry. by apply bool_decide_eq_true.
Qed.

(** The [_WIN32] branch: a failed lookup is a direct invocation, otherwise
    the buffer is compared with the sentinel. *)
Lemma should_set_dummy_win32_spec (result last_error : Z)
    (execpath_env : string) :
  should_set_dummy_win32 result last_error execpath_env = false
  ↔ ¬ (result = 0%Z ∧ last_error ≠ 0%Z)
    ∧ execpath_env = "PKG_INVOKE_NODEJS"%string.
Proof.
  unfold should_set_dummy_win32.
  destruct (decide (result = 0%Z ∧ last_error ≠ 0%Z)) as [[Hr He]|Hn].
  - rewrite !bool_decide_eq_true_2 by done. cbn. split; [done | tauto].
  - assert (bool_decide (result = 0%Z) && bool_decide (last_error ≠ 0%Z)
            = false) as ->.
    { apply andb_false_iff.
      destruct (decide (result = 0%Z)); [right | left];
        apply bool_decide_eq_false; tauto. }
    rewrite bool_decide_eq_false. split.
    + intros Hs. split; [done|]. by apply dec_stable.
    + intros [_ ->]. tauto.
Qed.

Lemma literal_c_str (s : string) :
  NUL ∉ list_ascii_of_string s → c_str (literal s) = list_ascii_of_string s.
Proof. intros Hs. unfold literal. by apply c_str_packed. Qed.

Lemma literal_terminated (s : string) : terminated (literal s).
Proof.
  unfold terminated, literal. apply elem_of_app. right.
  apply elem_of_cons. by left.
Qed.

Lemma PKG_DUMMY_ENTRYPOINT_no_NUL : NUL ∉ PKG_DUMMY_ENTRYPOINT.
Proof. apply (bool_decide_unpack _). vm_compute. exact I. Qed.

(** The whole of [reorder]: the call of [node::Start] it ends with. *)
Lemma reorder_call (fill : ascii) (getenv : string → option string)
    (markers : list (list ascii)) (tail : list ascii)
    (argv0 : cptr) (rest : list cptr) :
  Forall marker markers →
  length markers ≤ 63 →
  Forall terminated (argv0 :: rest) →
  let strings := relayed getenv (c_str argv0) markers (c_str <$> rest) in
  reorder fill getenv (marker_block markers tail) (argv0 :: rest)
  = Some (mkStartCall (length strings) (packed strings) (positions 0 strings)).
Proof.
  intros Hm Hlen Hargv strings.
  apply Forall_cons in Hargv as [Harg0 Hrest].
  set (dummy := if should_set_dummy getenv
                then [literal "PKG_DUMMY_ENTRYPOINT"] else []).
  assert (length dummy ≤ 1) as Hdummy
    by (unfold dummy; destruct (should_set_dummy getenv); simpl; lia).
  assert (c_str <$> dummy
          = if decide (self_invoked getenv) then [] else [PKG_DUMMY_ENTRYPOINT])
    as Hdummy_str.
  { unfold dummy. rewrite should_set_dummy_direct.
    destruct (decide (self_invoked getenv)) as [Hs|Hs].
    - rewrite bool_decide_eq_false_2 by tauto. done.
    - rewrite bool_decide_eq_true_2 by done. cbn [fmap list_fmap].
      rewrite literal_c_str by apply PKG_DUMMY_ENTRYPOINT_no_NUL. done. }
  assert (Forall terminated dummy) as Hdummy_t.
  { unfold dummy. destruct (should_set_dummy getenv); [|constructor].
    constructor; [apply literal_terminated | constructor]. }
  assert ((if should_set_dummy getenv
           then nargv_put (S (length rest) + 64)
                  ([argv0] ++ marker_ptrs markers tail)
                  (literal "PKG_DUMMY_ENTRYPOINT")
           else Some ([argv0] ++ marker_ptrs markers tail))
          = Some (([argv0] ++ marker_ptrs markers tail) ++ dummy)) as Hput.
  { unfold dummy. destruct (should_set_dummy getenv).
    - apply nargv_put_Some.
      rewrite length_app, marker_ptrs_length. cbn [length]. lia.
    - by rewrite app_nil_r. }
  clearbody dummy.
  set (nargv := [argv0] ++ marker_ptrs markers tail ++ dummy ++ rest).
  assert (strings = c_str <$> nargv) as Hstrings.
  { unfold strings, relayed, nargv.
    rewrite !fmap_app, marker_ptrs_c_str, Hdummy_str by done. done. }
  unfold reorder. cbn [lookup list_lookup mbind option_bind length drop].
  rewrite nargv_put_Some by (cbn [length]; lia). cbn [mbind option_bind app].
  pose proof (marker_block_length tail markers) as Hfuel.
  rewrite (scan_bakery_markers (S (length rest) + 64) tail markers Hm)
    by (cbn [length]; lia).
  cbn [mbind option_bind]. rewrite Hput. cbn [mbind option_bind].
  rewrite drop_0, copy_rest_Some
    by (rewrite !length_app, marker_ptrs_length; cbn [length]; lia).
  cbn [mbind option_bind].
  replace ((([argv0] ++ marker_ptrs markers tail) ++ dummy) ++ rest)
    with nargv by (unfold nargv; by rewrite <- !app_assoc).
  rewrite adjacent_packed.
  - rewrite Hstrings, length_fmap. done.
  - unfold nargv. repeat apply Forall_app_2; try done.
    by constructor.
    apply marker_ptrs_terminated.
Qed.

Lemma relayed_no_NUL (getenv : string → option string) (argv0 : cptr)
    (markers : list (list ascii)) (rest : list cptr) :
  Forall marker markers →
  Forall (λ s, NUL ∉ s) (relayed getenv (c_str argv0) markers (c_str <$> rest)).
Proof.
  intros Hm. unfold relayed. repeat apply Forall_app_2.
  - constructor; [apply c_str_no_NUL | constructor].
  - eapply Forall_impl; [exact Hm|]. by intros m [_ ?].
  - case_decide; repeat constructor. apply PKG_DUMMY_ENTRYPOINT_no_NUL.
  - apply Forall_fmap, Forall_forall. intros p _. apply c_str_no_NUL.
Qed.

(** C6: on a marker block that holds at most 63 marker strings, and for
    terminated arguments, [reorder] ends in the call of [node::Start]. In the
    direct case the strings handed over are [argv0], the marker strings, the
    token [PKG_DUMMY_ENTRYPOINT] and the arguments 1..N; in the self-invoked
    case the same without the token. In both cases the strings lie in this
    order, each followed by its terminator and nothing else, in the one block
    [adjacent] allocates, and [argv] points at their starts. *)
Theorem reorder_relays_in_one_block
    (fill : ascii) (getenv : string → option string)
    (markers : list (list ascii)) (tail : list ascii)
    (argv0 : cptr) (rest : list cptr) :
  Forall marker markers →
  length markers ≤ 63 →
  Forall terminated (argv0 :: rest) →
  ∃ call : StartCall,
    reorder fill getenv (marker_block markers tail) (argv0 :: rest) = Some call
    ∧ (¬ self_invoked getenv →
       start_strings call
       = [c_str argv0] ++ markers ++ [PKG_DUMMY_ENTRYPOINT]
           ++ (c_str <$> rest))
    ∧ (self_invoked getenv →
       start_strings call = [c_str argv0] ++ markers ++ (c_str <$> rest))
    ∧ start_args call = packed (start_strings call)
    ∧ start_argv call = positions 0 (start_strings call)
    ∧ start_argc call = length (start_strings call).
Proof.
  intros Hm Hlen Hargv.
  pose proof (reorder_call fill getenv markers tail argv0 rest Hm Hlen Hargv)
    as Hcall.
  cbv zeta in Hcall.
  pose proof (relayed_no_NUL getenv argv0 markers rest Hm) as Hno.
  eexists. split; [exact Hcall|].
  rewrite (start_strings_packed _ _ Hno). cbn [start_args start_argv start_argc].
  unfold relayed.
  repeat split; intros; try done.
  - by rewrite decide_False.
  - by rewrite decide_True.
Qed.

Lemma reorder_relays_in_one_block_witness :
  ∃ call : StartCall,
    reorder "x" env_direct (marker_block sample_markers []) sample_argv
    = Some call
    ∧ (¬ self_invoked env_direct →
       start_strings call
       = [c_str (literal "/usr/bin/app")] ++ sample_markers
           ++ [PKG_DUMMY_ENTRYPOINT]
           ++ (c_str <$> [literal "--port"; literal "80"]))
    ∧ (self_invoked env_direct →
       start_strings call
       = [c_str (literal "/usr/bin/app")] ++ sample_markers
           ++ (c_str <$> [literal "--port"; literal "80"]))
    ∧ start_args call = packed (start_strings call)
    ∧ start_argv call = positions 0 (start_strings call)
    ∧ start_argc call = length (start_strings call).
Proof.
  apply (reorder_relays_in_one_block "x" env_direct sample_markers []
           (literal "/usr/bin/app") [literal "--port"; literal "80"]).
  - repeat constructor; try discriminate;
      apply (bool_decide_unpack _); vm_compute; exact I.
  - simpl. lia.
  - repeat (constructor; [apply literal_terminated|]). constructor.
Defined.

(** More than 64 entries besides the arguments do not fit [nargv]: with 64
    markers the store of the token is past the end of the array. *)
Lemma reorder_overflow :
  reorder "x" env_direct
    (marker_block (replicate 64 [ascii_of_nat 97]) []) [literal "app"]
  = None.
Proof. vm_compute. reflexivity. Qed.

(** C10: the marker block of an unpatched binary starts with [NUL]: the scan
    of [reorder] stops at once and stores no marker string, and the strings
    handed to [node::Start] are [argv0], the token only in the direct case,
    and the arguments 1..N. *)
Theorem unpatched_reorder_no_markers
    (fill : ascii) (getenv : string → option string)
    (argv0 : cptr) (rest : list cptr) :
  Forall terminated (argv0 :: rest) →
  strlen2 BAKERY = Some 0
  ∧ (∀ capacity nargv,
       scan_bakery (S (length BAKERY)) capacity nargv BAKERY = Some nargv)
  ∧ ∃ call : StartCall,
      reorder fill getenv BAKERY (argv0 :: rest) = Some call
      ∧ (¬ self_invoked getenv →
         start_strings call
         = [c_str argv0] ++ [PKG_DUMMY_ENTRYPOINT] ++ (c_str <$> rest))
      ∧ (self_invoked getenv →
         start_strings call = [c_str argv0] ++ (c_str <$> rest)).
Proof.
  intros Hargv. split; [done|]. split; [done|].
  pose proof (reorder_call fill getenv [] (List.tl BAKERY) argv0 rest
                (Forall_nil_2 _) ltac:(simpl; lia) Hargv) as Hcall.
  cbv zeta in Hcall.
  pose proof (relayed_no_NUL getenv argv0 [] rest (Forall_nil_2 _)) as Hno.
  change (marker_block [] (List.tl BAKERY)) with BAKERY in Hcall.
  eexists. split; [exact Hcall|].
  rewrite (start_strings_packed _ _ Hno). unfold relayed.
  split; intros.
  - by rewrite decide_False.
  - by rewrite decide_True.
Qed.

Lemma unpatched_reorder_no_markers_witness :
  strlen2 BAKERY = Some 0
  ∧ (∀ capacity nargv,
       scan_bakery (S (length BAKERY)) capacity nargv BAKERY = Some nargv)
  ∧ ∃ call : StartCall,
      reorder "x" env_self_invoked BAKERY sample_argv = Some call
      ∧ (¬ self_invoked env_self_invoked →
         start_strings call
         = [c_str (literal "/usr/bin/app")] ++ [PKG_DUMMY_ENTRYPOINT]
             ++ (c_str <$> [literal "--port"; literal "80"]))
      ∧ (self_invoked env_self_invoked →
         start_strings call
         = [c_str (literal "/usr/bin/app")]
             ++ (c_str <$> [literal "--port"; literal "80"])).
Proof.
  apply (unpatched_reorder_no_markers "x" env_self_invoked
           (literal "/usr/bin/app") [literal "--port"; literal "80"]).
  repeat (constructor; [apply literal_terminated|]). constructor.
Defined.

End LauncherFacts.

(** ** The cache validator *)

Module CodeSerializerFacts.

Import CodeSerializer.

Section Validator.

Variables kMagicNumber Version_Hash FlagList_Hash kHeaderSize : Z.
Variable Checksum : list Z → Z.

Abbreviation SanityCheck :=
  (SanityCheck kMagicNumber Version_Hash FlagList_Hash kHeaderSize Checksum).
Abbreviation SanityCheck_unpatched :=
  (SanityCheck_unpatched kMagicNumber Version_Hash FlagList_Hash kHeaderSize
                         Checksum).

(** Neither the source hash of the blob nor the expected one is read. *)
Lemma SanityCheck_with_source_hash (b : SerializedCodeData) (h e1 e2 : Z) :
  SanityCheck (with_source_hash b h) e1 = SanityCheck b e2.
Proof. reflexivity. Qed.

Lemma SanityCheck_never_source_mismatch (b : SerializedCodeData) (e : Z) :
  SanityCheck b e ≠ SOURCE_MISMATCH.
Proof.
  unfold CodeSerializer.SanityCheck, check_payload.
  repeat case_decide; discriminate.
Qed.

(** Before the patch the same blob was turned down for another source. *)
Lemma SanityCheck_unpatched_source (b : SerializedCodeData) (e : Z) :
  magic_number b = kMagicNumber →
  version_hash b = Version_Hash →
  source_hash b ≠ e →
  SanityCheck_unpatched b e = SOURCE_MISMATCH.
Proof.
  intros Hm Hv Hs. unfold CodeSerializer.SanityCheck_unpatched. cbv zeta.
  rewrite decide_False by (intros ?; congruence).
  rewrite decide_False by (intros ?; congruence).
  by rewrite decide_True.
Qed.

(** With the right source hash the two functions agree. *)
Lemma SanityCheck_unpatched_same_source (b : SerializedCodeData) :
  SanityCheck_unpatched b (source_hash b) = SanityCheck b (source_hash b).
Proof.
  unfold CodeSerializer.SanityCheck_unpatched, CodeSerializer.SanityCheck.
  cbv zeta. repeat case_decide; congruence.
Qed.

End Validator.

(** C1: the result of [SanityCheck] is decided by the magic number, the
    version hash, the flags hash, the checksum and the payload-length bound
    of the blob: two blobs that agree in these and in their payload give the
    same result, whatever source hash each carries and whatever source hash
    the caller expects, and the result is never [SOURCE_MISMATCH]. *)
Theorem SanityCheck_independent_of_source
    (kMagicNumber Version_Hash FlagList_Hash kHeaderSize : Z)
    (Checksum : list Z → Z)
    (b1 b2 : SerializedCodeData) (e1 e2 : Z) :
  magic_number b1 = magic_number b2 →
  version_hash b1 = version_hash b2 →
  flags_hash b1 = flags_hash b2 →
  checksum b1 = checksum b2 →
  payload_length b1 = payload_length b2 →
  size_ b1 = size_ b2 →
  payload b1 = payload b2 →
  SanityCheck kMagicNumber Version_Hash FlagList_Hash kHeaderSize Checksum b1 e1
  = SanityCheck kMagicNumber Version_Hash FlagList_Hash kHeaderSize Checksum
      b2 e2
  ∧ SanityCheck kMagicNumber Version_Hash FlagList_Hash kHeaderSize Checksum
      b1 e1 ≠ SOURCE_MISMATCH.
Proof.
  intros Hm Hv Hf Hc Hl Hs Hp. split.
  - unfold SanityCheck, check_payload.
    rewrite Hm, Hv, Hf, Hc, Hl, Hs, Hp. reflexivity.
  - apply SanityCheck_never_source_mismatch.
Qed.

Lemma SanityCheck_independent_of_source_witness :
  SanityCheck 3233726688 17 5 32 (foldr Z.add 0%Z)
    (mkSCD 3233726688 17 1111 5 3 6 40 [1; 2; 3]%Z) 1111
  = SanityCheck 3233726688 17 5 32 (foldr Z.add 0%Z)
      (mkSCD 3233726688 17 2222 5 3 6 40 [1; 2; 3]%Z) 9999
  ∧ SanityCheck 3233726688 17 5 32 (foldr Z.add 0%Z)
      (mkSCD 3233726688 17 1111 5 3 6 40 [1; 2; 3]%Z) 1111
    ≠ SOURCE_MISMATCH.
Proof.
  apply (SanityCheck_independent_of_source 3233726688 17 5 32
           (foldr Z.add 0%Z)
           (mkSCD 3233726688 17 1111 5 3 6 40 [1; 2; 3]%Z)
           (mkSCD 3233726688 17 2222 5 3 6 40 [1; 2; 3]%Z) 1111 9999);
    reflexivity.
Defined.

End CodeSerializerFacts.

(** ** The accessors of a sourceless script *)

Module V8Facts.

Import V8.

(** [FixSourcelessScript] succeeds on a unit whose script is on the heap. *)
Lemma FixSourcelessScript_Some (h : Heap) (unbound sid : nat) (scr : Script) :
  unit_script h unbound = Some sid →
  scripts h !! sid = Some scr →
  FixSourcelessScript h unbound = Some (set_source h sid SourceUndefined).
Proof.
  unfold unit_script, FixSourcelessScript. intros Hu Hs.
  destruct (sfis h !! unbound) as [fi|]; [|done]. cbn in *.
  rewrite Hu. cbn. by rewrite Hs.
Qed.

(** What a successful [FixSourcelessScript] did. *)
Lemma FixSourcelessScript_inv (h h' : Heap) (unbound : nat) :
  FixSourcelessScript h unbound = Some h' →
  ∃ sid, unit_script h unbound = Some sid
         ∧ h' = set_source h sid SourceUndefined.
Proof.
  unfold unit_script, FixSourcelessScript. intros Hfix.
  destruct (sfis h !! unbound) as [fi|]; [|done]. cbn in *.
  destruct (script fi) as [sid|]; [|done]. cbn in *.
  destruct (scripts h !! sid); [|done]. cbn in *.
  exists sid. split; [done | congruence].
Qed.

Lemma FixSourcelessScript_sourceless (h h' : Heap) (unbound : nat) :
  FixSourcelessScript h unbound = Some h' →
  ∃ sid, sourceless_unit h' unbound sid.
Proof.
  intros Hfix. apply FixSourcelessScript_inv in Hfix as (sid & Hu & ->).
  exists sid. split; [exact Hu|].
  unfold set_source. cbn. apply lookup_insert_eq.
Qed.

(** No step gives a script its source back, or moves a unit to another
    script. *)
Lemma step_sourceless_unit (op : Op) (e e' : Engine) (unbound sid : nat) :
  sourceless_unit (heap e) unbound sid →
  step op e = Some e' →
  sourceless_unit (heap e') unbound sid.
Proof.
  intros [Hu Hs] Hstep. destruct op; cbn in Hstep.
  - destruct (FixSourcelessScript (heap e) unbound_script) as [h'|] eqn:Hfix;
      [|done].
    injection Hstep as <-. cbn.
    apply FixSourcelessScript_inv in Hfix as (sid' & _ & ->).
    split; [exact Hu|]. unfold set_source. cbn.
    destruct (decide (sid' = sid)) as [->|Hne].
    + apply lookup_insert_eq.
    + by rewrite lookup_insert_ne.
  - unfold flush_bytecode in Hstep.
    destruct (sfis (heap e) !! f) as [sfi|] eqn:Hf; [|done]. cbn in Hstep.
    destruct (ShouldFlushBytecode (heap e) sfi mode) as [[]|]; [| |done];
      cbn in Hstep; injection Hstep as <-; cbn; [|done].
    split; [|exact Hs]. unfold unit_script in *. cbn.
    destruct (decide (f = unbound)) as [->|Hne].
    + rewrite lookup_insert_eq. cbn. by rewrite Hf in Hu.
    + by rewrite lookup_insert_ne.
  - by injection Hstep as <-.
  - by injection Hstep as <-.
  - injection Hstep as <-. cbn. split; [exact Hu|].
    unfold new_script. cbn. rewrite lookup_insert_ne; [done|].
    intros Heq. apply (is_fresh (dom (scripts (heap e)))).
    rewrite Heq. apply elem_of_dom. by eexists.
  - by injection Hstep as <-.
  - by injection Hstep as <-.
Qed.

Lemma run_sourceless_unit (ops : list Op) (e e' : Engine) (unbound sid : nat) :
  sourceless_unit (heap e) unbound sid →
  run ops e = Some e' →
  sourceless_unit (heap e') unbound sid.
Proof.
  revert e. induction ops as [|op ops IH]; intros e Hinv Hrun; cbn in Hrun.
  - by injection Hrun as <-.
  - destruct (step op e) as [e1|] eqn:Hstep; [|done]. cbn in Hrun.
    eapply IH; [|exact Hrun]. by eapply step_sourceless_unit.
Qed.

(** The flush check on a function of a sourceless unit. *)
Lemma ShouldFlushBytecode_sourceless (h : Heap) (sfi : SharedFunctionInfo)
    (sid : nat) (mode : BytecodeFlushMode) :
  script sfi = Some sid →
  scripts h !! sid = Some (mkScript SourceUndefined) →
  ShouldFlushBytecode h sfi mode = Some false.
Proof.
  intros Hscript Hs. unfold ShouldFlushBytecode.
  destruct (function_data sfi); [|done].
  rewrite Hscript, Hs. done.
Qed.

(** On a script that kept its text the stress mode does flush. *)
Lemma ShouldFlushBytecode_stress_sourced :
  ShouldFlushBytecode sourced_heap (mkSFI (BytecodeArray false) (Some 7))
    kStressFlushBytecode = Some true.
Proof. vm_compute. reflexivity. Qed.

(** [ParseFunction] fails fast without source. *)
Lemma ParseFunction_sourceless (parse_source : string → bool) (h : Heap)
    (sfi : SharedFunctionInfo) (sid : nat) :
  script sfi = Some sid →
  scripts h !! sid = Some (mkScript SourceUndefined) →
  ParseFunction parse_source h sfi = Some false.
Proof. intros Hscript Hs. unfold ParseFunction. rewrite Hscript. cbn. by rewrite Hs. Qed.

(** C8: for a function that is printed as a class, the branch of
    [JSFunction::ToString] that slices the script source by position, the
    result on a script whose source is [undefined] is the fixed string
    "class {}", whatever the positions are. *)
Theorem ToString_sourceless_class
    (ToString_rest : Heap → JSFunction → option string)
    (h : Heap) (function : JSFunction) (positions : nat * nat)
    (shared_info : SharedFunctionInfo) (sid : nat) :
  class_positions function = Some positions →
  sfis h !! shared function = Some shared_info →
  script shared_info = Some sid →
  scripts h !! sid = Some (mkScript SourceUndefined) →
  ToString ToString_rest h function = Some "class {}"%string.
Proof.
  intros Hc Hf Hscript Hs. unfold ToString.
  rewrite Hc. destruct positions as [start_position end_position].
  rewrite Hf. cbn. rewrite Hscript. cbn. rewrite Hs. done.
Qed.

Lemma ToString_sourceless_class_witness :
  ToString no_rest sourceless_heap class_function = Some "class {}"%string.
Proof.
  apply (ToString_sourceless_class no_rest sourceless_heap class_function
           (4, 14) (mkSFI (BytecodeArray true) (Some 7)) 7);
    reflexivity.
Defined.

(** With the source in place the same call slices it. *)
Lemma ToString_sourced_class :
  ToString no_rest sourced_heap class_function = Some "class A {}"%string.
Proof. vm_compute. reflexivity. Qed.

End V8Facts.

(** ** The script host binding *)

Module ContextifyFacts.

Import V8 Contextify V8Facts.

Section Binding.

Variable CompileUnboundScript :
  Engine → string → option (list Z) → CompileOptions → CompileOutcome.
Variable CreateCodeCache : Heap → nat → option (list Z).

Abbreviation New := (New CompileUnboundScript CreateCodeCache).

(** The flags during the compile of a sourceless, cache-producing call. *)
Lemma engine_at_compile_sourceless (e : Engine) (a : NewArgs) :
  sourceless a = true → produce_cached_data a = true →
  FLAG_lazy (engine_at_compile e a) = false
  ∧ FLAG_predictable (engine_at_compile e a) = true.
Proof. intros Hs Hp. unfold engine_at_compile. by rewrite Hs, Hp. Qed.

(** A call that returns leaves both flags as they were. *)
Lemma New_returned_flags (e e' : Engine) (a : NewArgs)
    (this : ContextifyScript) :
  New e a = Some (e', this, Returned) →
  FLAG_lazy e' = FLAG_lazy e ∧ FLAG_predictable e' = FLAG_predictable e.
Proof.
  unfold Contextify.New, engine_at_compile. intros Hnew.
  destruct (v8_script _) as [unbound|]; [|done].
  destruct (sourceless a && produce_cached_data a);
    match type of Hnew with
    | context [mbind _ ?m] => destruct m as [h3|]; [|done]
    end; cbn in Hnew; injection Hnew as <- _; done.
Qed.

(** Without [sourceless] no path touches the flags or the saved values. *)
Lemma New_not_sourceless_flags (e e' : Engine) (a : NewArgs)
    (this : ContextifyScript) (c : Completion) :
  sourceless a = false →
  New e a = Some (e', this, c) →
  FLAG_lazy e' = FLAG_lazy e ∧ FLAG_predictable e' = FLAG_predictable e
  ∧ save_lazy e' = save_lazy e ∧ save_predictable e' = save_predictable e.
Proof.
  unfold Contextify.New, engine_at_compile. intros -> Hnew. cbn in Hnew.
  destruct (v8_script _) as [unbound|]; cbn in Hnew;
    injection Hnew as <- _ _; done.
Qed.

(** A failed compile of a sourceless, cache-producing call returns through
    the early [return]: the override of the flags stays. *)
Lemma New_rethrown_flags (e : Engine) (a : NewArgs) :
  sourceless a = true → produce_cached_data a = true →
  v8_script (outcome_of CompileUnboundScript e a) = None →
  ∃ e', New e a = Some (e', empty_this, Rethrown)
        ∧ FLAG_lazy e' = false ∧ FLAG_predictable e' = true.
Proof.
  unfold Contextify.New, outcome_of, engine_at_compile. intros -> -> ->.
  eexists. split; [reflexivity|]. done.
Qed.

(** A unit compiled by a sourceless call that consumed an accepted cache has
    lost its source when the call returns. *)
Lemma New_accepted_sourceless (e e' : Engine) (a : NewArgs)
    (this : ContextifyScript) (unbound : nat) :
  sourceless a = true →
  New e a = Some (e', this, Returned) →
  script_ this = Some unbound →
  cachedDataRejected this = Some false →
  ∃ sid, sourceless_unit (heap e') unbound sid.
Proof.
  unfold Contextify.New, compile_options_of. intros Hs Hnew Hscript Hrej.
  rewrite Hs in Hnew.
  destruct (v8_script _) as [u|]; [|done].
  destruct (cached_data a) as [blob|].
  - cbn in Hnew. destruct (rejected _) eqn:Hr; cbn in Hnew.
    + injection Hnew as <- <-. cbn in Hrej. congruence.
    + destruct (FixSourcelessScript _ u) as [h3|] eqn:Hfix; [|done].
      cbn in Hnew. injection Hnew as <- <-. cbn in Hscript.
      injection Hscript as ->.
      apply FixSourcelessScript_sourceless in Hfix.
      by destruct (produce_cached_data a).
  - cbn in Hnew. injection Hnew as <- <-.
    by destruct (produce_cached_data a).
Qed.

(** What [New] does with a rejected cache in a sourceless call that does not
    produce one. *)
Lemma New_rejected (e : Engine) (a : NewArgs) :
  sourceless a = true →
  produce_cached_data a = false →
  is_Some (cached_data a) →
  rejected (outcome_of CompileUnboundScript e a) = true →
  New e a
  = Some (match v8_script (outcome_of CompileUnboundScript e a) with
          | Some unbound =>
              (with_heap e (heap_after (outcome_of CompileUnboundScript e a)),
               mkCS (Some unbound) (Some true) None None, Returned)
          | None =>
              (with_heap e (heap_after (outcome_of CompileUnboundScript e a)),
               empty_this, Rethrown)
          end).
Proof.
  unfold Contextify.New, outcome_of, engine_at_compile, compile_options_of.
  intros Hs Hp [blob Hblob] Hr. rewrite Hs, Hp, Hblob in *. cbn in *.
  destruct (v8_script _) as [u|]; [|done].
  rewrite Hr. done.
Qed.

End Binding.

(** C3: a unit that [New] compiled with [sourceless] from a cache the engine
    accepted has the [undefined] value in the source slot of its script when
    [New] returns and after every later sequence of operations, and
    [ShouldFlushBytecode] answers false, in every flush mode, for every
    function that belongs to that script. *)
Theorem sourceless_unit_keeps_sentinel
    (CompileUnboundScript :
       Engine → string → option (list Z) → CompileOptions → CompileOutcome)
    (CreateCodeCache : Heap → nat → option (list Z))
    (e e1 e2 : Engine) (a : NewArgs) (this : ContextifyScript)
    (unbound : nat) (ops : list Op) :
  sourceless a = true →
  Contextify.New CompileUnboundScript CreateCodeCache e a
  = Some (e1, this, Returned) →
  script_ this = Some unbound →
  cachedDataRejected this = Some false →
  run ops e1 = Some e2 →
  source_of (heap e2) unbound = Some SourceUndefined
  ∧ SourceUndefined ≠ SourceString ""
  ∧ ∀ (sfi : SharedFunctionInfo) (mode : BytecodeFlushMode),
      script sfi = unit_script (heap e2) unbound →
      ShouldFlushBytecode (heap e2) sfi mode = Some false.
Proof.
  intros Hs Hnew Hscript Hrej Hrun.
  destruct (New_accepted_sourceless _ _ _ _ _ _ _ Hs Hnew Hscript Hrej)
    as [sid Hunit].
  destruct (run_sourceless_unit ops e1 e2 unbound sid Hunit Hrun) as [Hu Hsrc].
  split; [|split; [discriminate|]].
  - unfold source_of. unfold unit_script in Hu.
    destruct (sfis (heap e2) !! unbound) as [fi|]; [|done]. cbn in *.
    rewrite Hu. cbn. by rewrite Hsrc.
  - intros sfi mode Hsfi. rewrite Hu in Hsfi.
    by eapply ShouldFlushBytecode_sourceless.
Qed.

Lemma sourceless_unit_keeps_sentinel_witness :
  source_of (heap later_engine) 0 = Some SourceUndefined
  ∧ SourceUndefined ≠ SourceString ""
  ∧ ∀ (sfi : SharedFunctionInfo) (mode : BytecodeFlushMode),
      script sfi = unit_script (heap later_engine) 0 →
      ShouldFlushBytecode (heap later_engine) sfi mode = Some false.
Proof.
  apply (sourceless_unit_keeps_sentinel accepting_engine no_code_cache
           default_engine accepted_engine later_engine consume_sourceless
           (mkCS (Some 0) (Some false) None None) 0 later_ops);
    vm_compute; reflexivity.
Defined.

(** C2, as the spec states it, does not hold: an engine that rejects the
    cache and compiles the code it was given makes [New] return normally. *)
Lemma rejected_cache_fails_counterexample :
  ¬ (∀ (compile :
          Engine → string → option (list Z) → CompileOptions → CompileOutcome)
       (create : Heap → nat → option (list Z)) (e : Engine) (a : NewArgs),
       sourceless a = true →
       produce_cached_data a = false →
       is_Some (cached_data a) →
       rejected (outcome_of compile e a) = true →
       ∃ e' this c,
         Contextify.New compile create e a = Some (e', this, c)
         ∧ cachedDataRejected this = Some true
         ∧ c ≠ Returned).
Proof.
  intros Hclaim.
  destruct (Hclaim recompiling_engine no_code_cache default_engine
              consume_sourceless eq_refl eq_refl (mk_is_Some _ _ eq_refl)
              eq_refl)
    as (e' & this & c & Hnew & _ & Hc).
  vm_compute in Hnew. congruence.
Qed.

(** C2, amended: when the engine rejects the cache of a sourceless call that
    does not produce one, [New] raises no error of its own. If the engine
    handed back a script, [New] returns normally with that script, reports
    [cachedDataRejected = true] and leaves the heap as the engine left it
    (the source is not erased) and the flags as they were; if the engine's
    compile failed, its error is rethrown. *)
Theorem rejected_cache_is_reported
    (CompileUnboundScript :
       Engine → string → option (list Z) → CompileOptions → CompileOutcome)
    (CreateCodeCache : Heap → nat → option (list Z))
    (e : Engine) (a : NewArgs) :
  sourceless a = true →
  produce_cached_data a = false →
  is_Some (cached_data a) →
  rejected (outcome_of CompileUnboundScript e a) = true →
  Contextify.New CompileUnboundScript CreateCodeCache e a
  = Some (match v8_script (outcome_of CompileUnboundScript e a) with
          | Some unbound =>
              (with_heap e (heap_after (outcome_of CompileUnboundScript e a)),
               mkCS (Some unbound) (Some true) None None, Returned)
          | None =>
              (with_heap e (heap_after (outcome_of CompileUnboundScript e a)),
               empty_this, Rethrown)
          end).
Proof. apply New_rejected. Qed.

Lemma rejected_cache_is_reported_witness :
  Contextify.New recompiling_engine no_code_cache default_engine
    consume_sourceless
  = Some (match v8_script (outcome_of recompiling_engine default_engine
                                      consume_sourceless) with
          | Some unbound =>
              (with_heap default_engine
                 (heap_after (outcome_of recompiling_engine default_engine
                                         consume_sourceless)),
               mkCS (Some unbound) (Some true) None None, Returned)
          | None =>
              (with_heap default_engine
                 (heap_after (outcome_of recompiling_engine default_engine
                                         consume_sourceless)),
               empty_this, Rethrown)
          end).
Proof.
  apply (rejected_cache_is_reported recompiling_engine no_code_cache
           default_engine consume_sourceless);
    [reflexivity | reflexivity | by eexists | reflexivity].
Defined.

(** The script such a call returns still has the text it was compiled from. *)
Lemma rejected_cache_keeps_source :
  ∃ e' this,
    Contextify.New recompiling_engine no_code_cache default_engine
      (mkNewArgs "f()" (Some [1; 2; 3]%Z) false true)
    = Some (e', this, Returned)
    ∧ cachedDataRejected this = Some true
    ∧ source_of (heap e') 0 = Some (SourceString "f()").
Proof. eexists _, _. split; [vm_compute; reflexivity|]. split; vm_compute; reflexivity. Qed.

(** C4 fails on the path of a failed compile: the call overrides the flags,
    the compile fails, and [New] returns through the early [return] before
    [DisableCompilationForSourcelessUse]: lazy compilation stays off and the
    predictable mode stays on. *)
Theorem failed_compile_leaves_flags_overridden :
  FLAG_lazy default_engine = true
  ∧ FLAG_predictable default_engine = false
  ∧ ∃ e',
      Contextify.New failing_engine no_code_cache default_engine
        (produce_sourceless "function (")
      = Some (e', empty_this, Rethrown)
      ∧ FLAG_lazy e' = false
      ∧ FLAG_predictable e' = true.
Proof.
  split; [reflexivity|]. split; [reflexivity|].
  eexists. split; [vm_compute; reflexivity|]. split; reflexivity.
Qed.

End ContextifyFacts.

(** ** The bootstrap loader and the guard of the preparation *)

Module BootstrapFacts.

Import Bootstrap.

(** [splice(1, 1)] takes out the element at index 1 and nothing else. *)
Lemma splice_1_1 {A} (a0 a1 : A) (rest : list A) :
  splice 1 1 (a0 :: a1 :: rest) = a0 :: rest.
Proof. reflexivity. Qed.

(** An array without an index 1 is left as it is. *)
Lemma splice_1_1_short {A} (l : list A) :
  length l ≤ 1 → splice 1 1 l = l.
Proof. destruct l as [|a0 [|a1 l]]; simpl; [done | done | lia]. Qed.

(** The placeholder literals read as the zero sentinel. *)
Lemma unpatched_zero : or_zero (PRELUDE_POSITION unpatched) = 0%Z.
Proof. reflexivity. Qed.

(** An integer of at most 53 bits is a double. *)
Lemma to_double_exact (n : N) : (n < 2 ^ 53)%N → to_double n = Some n.
Proof.
  intros Hn. unfold to_double.
  assert (N.size n ≤ 53)%N as Hsize.
  { destruct (decide (n = 0%N)) as [->|Hnz]; [done|].
    rewrite N.size_log2 by done.
    apply N.le_succ_l, N.log2_lt_pow2; lia. }
  apply N.leb_le in Hsize. by rewrite Hsize.
Qed.

(** [ToInt32] leaves the integers from 0 to 2^31 - 1 alone. *)
Lemma ToInt32_small (z : Z) : (0 ≤ z < 2 ^ 31)%Z → ToInt32 z = z.
Proof. intros Hz. unfold ToInt32. rewrite Z.mod_small by lia. lia. Qed.

(** A numeral in the range of a 32-bit integer reads as itself. *)
Lemma or_zero_Numeral (n : N) :
  (Z.of_N n < 2 ^ 31)%Z → or_zero (Numeral n) = Z.of_N n.
Proof.
  intros Hn. unfold or_zero. rewrite to_double_exact.
  - apply ToInt32_small. lia.
  - apply N2Z.inj_lt. rewrite N2Z.inj_pow. cbn. lia.
Qed.

Lemma openSync_Some (w : World) (path : string) (image : list byte) :
  disk w !! path = Some image →
  openSync w path
  = Some (fresh (dom (fds w)),
          set_fds w (<[fresh (dom (fds w)) := path]> (fds w))).
Proof. intros Hd. unfold openSync. by rewrite Hd. Qed.

Lemma fresh_fd_closed (w : World) : fds w !! fresh (dom (fds w)) = None.
Proof. apply not_elem_of_dom, is_fresh. Qed.

(** [readPrelude] without a prelude. *)
Lemma readPrelude_zero (b : Baked) (fd : Z) (w : World) :
  or_zero (PRELUDE_POSITION b) = 0%Z →
  readPrelude b fd w = (set_argv w (splice 1 1 (argv w)), ReturnUndoPatch).
Proof. intros Hz. unfold readPrelude. by rewrite Hz. Qed.

(** The read [readPrelude] asks for, on a descriptor of the executable. *)
Lemma readSync_prelude (b : Baked) (fd : Z) (w : World) (image : list byte) :
  fds w !! fd = Some (execPath w) →
  disk w !! execPath w = Some image →
  readSync w fd (replicate (Z.to_nat (or_zero (PRELUDE_SIZE b))) x00) 0
           (or_zero (PRELUDE_SIZE b)) (or_zero (PRELUDE_POSITION b))
  = Some (length (prelude_range b image),
          prelude_range b image
            ++ replicate (Z.to_nat (or_zero (PRELUDE_SIZE b))
                          - length (prelude_range b image)) x00).
Proof.
  intros Hfd Hdisk. unfold readSync. rewrite Hfd. cbn. rewrite Hdisk. cbn.
  fold (prelude_range b image). by rewrite drop_replicate.
Qed.

Lemma prelude_range_length (b : Baked) (image : list byte) :
  length (prelude_range b image) ≤ Z.to_nat (or_zero (PRELUDE_SIZE b)).
Proof. unfold prelude_range. rewrite length_take. lia. Qed.

(** The bytes between the engine binary and the payload. *)
Lemma prelude_range_middle (b : Baked) (B P A : list byte) :
  Z.of_nat (length B) = or_zero (PRELUDE_POSITION b) →
  Z.of_nat (length P) = or_zero (PRELUDE_SIZE b) →
  prelude_range b (B ++ P ++ A) = P.
Proof.
  intros HB HP. unfold prelude_range. rewrite <- HB, <- HP, !Nat2Z.id.
  by rewrite drop_app_length, take_app_length.
Qed.

(** [readPrelude] with a prelude: one read, then the exit or the call. *)
Lemma readPrelude_nonzero (b : Baked) (fd : Z) (w : World)
    (image : list byte) :
  or_zero (PRELUDE_POSITION b) ≠ 0%Z →
  (0 ≤ or_zero (PRELUDE_SIZE b))%Z →
  fds w !! fd = Some (execPath w) →
  disk w !! execPath w = Some image →
  readPrelude b fd w
  = if decide (Z.of_nat (length (prelude_range b image))
               ≠ or_zero (PRELUDE_SIZE b))
    then (mkWorld (argv w) (env w) (execPath w) (disk w) (fds w)
            (fs w) (binding_fs w)
            (stderr w
               ++ short_read_report b w (length (prelude_range b image))),
          ProcessExit 1)
    else (w, PreludeCall
               (prelude_range b image
                  ++ replicate (Z.to_nat (or_zero (PRELUDE_SIZE b))
                                - length (prelude_range b image)) x00)
               (vm_Script_options "pkg/prelude/bootstrap.js")
               (prelude_args b fd)).
Proof.
  intros Hpos Hsize Hfd Hdisk. unfold readPrelude, Buffer_alloc.
  rewrite decide_False by done. rewrite decide_False by lia.
  rewrite (readSync_prelude b fd w image Hfd Hdisk).
  case_decide; [|done].
  unfold console_error, short_read_report. cbn.
  by rewrite <- app_assoc.
Qed.

(** A negative length makes [Buffer.alloc] throw before anything is read. *)
Lemma readPrelude_negative_size (b : Baked) (fd : Z) (w : World) :
  or_zero (PRELUDE_POSITION b) ≠ 0%Z →
  (or_zero (PRELUDE_SIZE b) < 0)%Z →
  readPrelude b fd w = (w, Throw).
Proof.
  intros Hpos Hsize. unfold readPrelude, Buffer_alloc.
  rewrite decide_False by done. by rewrite decide_True.
Qed.

Lemma readPrelude_full (b : Baked) (fd : Z) (w : World) (image : list byte) :
  or_zero (PRELUDE_POSITION b) ≠ 0%Z →
  (0 ≤ or_zero (PRELUDE_SIZE b))%Z →
  fds w !! fd = Some (execPath w) →
  disk w !! execPath w = Some image →
  length (prelude_range b image) = Z.to_nat (or_zero (PRELUDE_SIZE b)) →
  readPrelude b fd w
  = (w, PreludeCall (prelude_range b image)
          (mkScriptOptions "pkg/prelude/bootstrap.js" None false false)
          (prelude_args b fd)).
Proof.
  intros Hpos Hsize Hfd Hdisk Hlen.
  rewrite (readPrelude_nonzero b fd w image) by done.
  rewrite decide_False by lia.
  rewrite Hlen, Nat.sub_diag. cbn [replicate]. by rewrite app_nil_r.
Qed.

(** On an executable that is an engine binary, a prelude and a payload, the
    call is the same for all engine binaries of one length and for all
    payloads. *)
Lemma readPrelude_layout (b : Baked) (fd : Z) (w : World)
    (B P A : list byte) :
  or_zero (PRELUDE_POSITION b) ≠ 0%Z →
  fds w !! fd = Some (execPath w) →
  disk w !! execPath w = Some (B ++ P ++ A) →
  Z.of_nat (length B) = or_zero (PRELUDE_POSITION b) →
  Z.of_nat (length P) = or_zero (PRELUDE_SIZE b) →
  readPrelude b fd w
  = (w, PreludeCall P
          (mkScriptOptions "pkg/prelude/bootstrap.js" None false false)
          (prelude_args b fd)).
Proof.
  intros Hpos Hfd Hdisk HB HP.
  pose proof (prelude_range_middle b B P A HB HP) as Hmid.
  rewrite (readPrelude_full b fd w (B ++ P ++ A)); try done.
  - by rewrite Hmid.
  - lia.
  - rewrite Hmid. lia.
Qed.

(** Outside the range of a 32-bit integer no numeral reads as itself:
    [literal | 0] is the numeral exactly for the numerals below 2^31. *)
Lemma or_zero_range (l : Literal) : (- 2 ^ 31 ≤ or_zero l < 2 ^ 31)%Z.
Proof.
  assert (∀ z, - 2 ^ 31 ≤ ToInt32 z < 2 ^ 31)%Z as Hrange.
  { intros z. unfold ToInt32.
    pose proof (Z.mod_pos_bound (z + 2 ^ 31) (2 ^ 32)). lia. }
  destruct l as [|n]; cbn [or_zero]; [lia|].
  destruct (to_double n); [apply Hrange | lia].
Qed.

Lemma or_zero_Numeral_iff (n : N) :
  or_zero (Numeral n) = Z.of_N n ↔ (Z.of_N n < 2 ^ 31)%Z.
Proof.
  split; [|apply or_zero_Numeral].
  intros Hn. pose proof (or_zero_range (Numeral n)). lia.
Qed.

(** A numeral of more than 53 bits is rounded before it is truncated. *)
Lemma or_zero_rounds : or_zero (Numeral 9007199254740993) = 0%Z.
Proof. reflexivity. Qed.

(** A prelude offset of 2^32 reads as the zero sentinel: nothing is read. *)
Lemma readPrelude_wide_offset (fd : Z) (w : World) :
  readPrelude (mkBaked (Numeral 1050) (Numeral 200) (Numeral 4294967296)
                       (Numeral 50)) fd w
  = (set_argv w (splice 1 1 (argv w)), ReturnUndoPatch).
Proof. reflexivity. Qed.

(** A prelude length of 3000000000 reads as a negative number, which
    [Buffer.alloc] refuses. *)
Lemma readPrelude_wide_size (fd : Z) (w : World) :
  readPrelude (mkBaked (Numeral 1050) (Numeral 200) (Numeral 1000)
                       (Numeral 3000000000)) fd w
  = (w, Throw).
Proof. reflexivity. Qed.




(** What the prelude function gets there. *)
Lemma wide_payload_call :
  (readPrelude (mkBaked (Numeral 1050) (Numeral 3000000000) (Numeral 1000)
                        (Numeral 50)) 3
     (scenario_world (scenario_image x01 x02 x03))).2
  = PreludeCall (replicate 50 x02)
      (mkScriptOptions "pkg/prelude/bootstrap.js" None false false)
      [ArgProcess; ArgRequire; ArgConsole; ArgNumber 3; ArgNumber 1050;
       ArgNumber (-1294967296)].
Proof. vm_compute. reflexivity. Qed.



(** The scenario of the spec: the loader compiles the 50 bytes at offset
    1000 and hands over the descriptor, 1050 and 200, whatever the bytes of
    the engine binary and of the payload are. *)
Lemma scenario_prelude_call (B A : byte) :
  readPrelude scenario_baked 3 (scenario_world (scenario_image B x02 A))
  = (scenario_world (scenario_image B x02 A),
     PreludeCall (replicate 50 x02)
       (mkScriptOptions "pkg/prelude/bootstrap.js" None false false)
       [ArgProcess; ArgRequire; ArgConsole; ArgNumber 3; ArgNumber 1050;
        ArgNumber 200]).
Proof.
  apply (readPrelude_layout scenario_baked 3
           (scenario_world (scenario_image B x02 A))
           (replicate 1000 B) (replicate 50 x02) (replicate 200 A));
    [vm_compute; discriminate | reflexivity..].
Qed.

(** What [undo_patch] leaves behind. *)
Lemma undo_patch_fs (fd : Z) (w : World) :
  fs (undo_patch fd w) !! "internalModuleStat"%string
  = Some (get (binding_fs w) "internalModuleStat")
  ∧ fs (undo_patch fd w) !! "internalModuleReadJSON"%string
    = Some (get (binding_fs w) "internalModuleReadJSON").
Proof.
  unfold undo_patch. cbn. split.
  - rewrite lookup_insert_ne by done. apply lookup_insert_eq.
  - apply lookup_insert_eq.
Qed.

Lemma call_property_restored (R : Type) (call : nat → string → R)
    (o binding : gmap string JsVal) (key f : string) :
  o !! key = Some (get binding key) →
  call_property R call o key f = call_property R call binding key f.
Proof. intros Ho. unfold call_property, get at 1. by rewrite Ho. Qed.

(** The loader on a build without a prelude. *)
Lemma load_zero (run_prelude :
                   list byte → ScriptOptions → list Arg → World → World * bool)
    (b : Baked) (w : World) (image : list byte) :
  or_zero (PRELUDE_POSITION b) = 0%Z →
  disk w !! execPath w = Some image →
  load run_prelude b w
  = (undo_patch (fresh (dom (fds w)))
       (set_argv (set_fds w (<[fresh (dom (fds w)) := execPath w]> (fds w)))
                 (splice 1 1 (argv w))),
     Finished).
Proof.
  intros Hz Hdisk. unfold load.
  rewrite (openSync_Some w (execPath w) image Hdisk).
  by rewrite readPrelude_zero.
Qed.

(** C7: when the prelude offset is the zero sentinel, the loader (which can
    open the executable) takes the element at index 1 out of [process.argv]
    and nothing else, and assigns to [fs.internalModuleStat] and
    [fs.internalModuleReadJSON] the functions of [process.binding('fs')]:
    called through [fs], both give what the binding's functions give for the
    same argument. The descriptor is closed again and the run ends
    normally. *)
Theorem no_prelude_strips_token_and_restores_fs
    (run_prelude :
       list byte → ScriptOptions → list Arg → World → World * bool)
    (R : Type) (call : nat → string → R)
    (b : Baked) (w : World) (image : list byte)
    (a0 token : string) (rest : list string) :
  or_zero (PRELUDE_POSITION b) = 0%Z →
  disk w !! execPath w = Some image →
  argv w = a0 :: token :: rest →
  ∃ w' : World,
    load run_prelude b w = (w', Finished)
    ∧ argv w' = a0 :: rest
    ∧ length (argv w') = length (a0 :: rest)
    ∧ fs w' !! "internalModuleStat"%string
      = Some (get (binding_fs w) "internalModuleStat")
    ∧ fs w' !! "internalModuleReadJSON"%string
      = Some (get (binding_fs w) "internalModuleReadJSON")
    ∧ (∀ f : string,
         internalModuleStat R call w' f
         = call_property R call (binding_fs w) "internalModuleStat" f)
    ∧ (∀ f : string,
         internalModuleReadJSON R call w' f
         = call_property R call (binding_fs w) "internalModuleReadJSON" f)
    ∧ binding_fs w' = binding_fs w
    ∧ fds w' = fds w.
Proof.
  intros Hz Hdisk Hargv. eexists. split; [by eapply load_zero|].
  set (w1 := set_argv _ _).
  destruct (undo_patch_fs (fresh (dom (fds w))) w1) as [Hstat Hjson].
  assert (argv (undo_patch (fresh (dom (fds w))) w1) = a0 :: rest) as Ha
    by (cbn; by rewrite Hargv).
  repeat split; try done.
  - by rewrite Ha.
  - intros f. by apply call_property_restored.
  - intros f. by apply call_property_restored.
  - cbn. apply delete_insert_id, fresh_fd_closed.
Qed.

Lemma no_prelude_strips_token_and_restores_fs_witness :
  ∃ w' : World,
    load idle_prelude unpatched (scenario_world [x01; x02]) = (w', Finished)
    ∧ argv w' = "/app"%string :: ["run"%string]
    ∧ length (argv w') = length ("/app"%string :: ["run"%string])
    ∧ fs w' !! "internalModuleStat"%string
      = Some (get (binding_fs (scenario_world [x01; x02]))
                  "internalModuleStat")
    ∧ fs w' !! "internalModuleReadJSON"%string
      = Some (get (binding_fs (scenario_world [x01; x02]))
                  "internalModuleReadJSON")
    ∧ (∀ f : string,
         internalModuleStat string (λ g x, x) w' f
         = call_property string (λ g x, x)
             (binding_fs (scenario_world [x01; x02])) "internalModuleStat" f)
    ∧ (∀ f : string,
         internalModuleReadJSON string (λ g x, x) w' f
         = call_property string (λ g x, x)
             (binding_fs (scenario_world [x01; x02]))
             "internalModuleReadJSON" f)
    ∧ binding_fs w' = binding_fs (scenario_world [x01; x02])
    ∧ fds w' = fds (scenario_world [x01; x02]).
Proof.
  apply (no_prelude_strips_token_and_restores_fs idle_prelude string
           (λ g x, x) unpatched (scenario_world [x01; x02]) [x01; x02]
           "/app" "PKG_DUMMY_ENTRYPOINT" ["run"%string]);
    reflexivity.
Defined.

(** In a self-invoked process there is no token at index 1: the loader takes
    out the first argument of the application. *)
Lemma no_prelude_strips_first_argument
    (run_prelude :
       list byte → ScriptOptions → list Arg → World → World * bool) :
  argv (load run_prelude unpatched
          (set_argv (scenario_world [x01]) ["/app"; "run"; "fast"]%string)).1
  = ["/app"; "fast"]%string.
Proof. reflexivity. Qed.

Section Guard.

Variable path_resolve : string → string.
Variable remaining_preparation : World → World.

Abbreviation prepare :=
  (prepareMainThreadExecution path_resolve remaining_preparation).

Lemma prepare_first (expandArgv1 : bool) (w : World) :
  prepare expandArgv1 (process_start w)
  = mkPre true
      (remaining_preparation
         (patchProcessObject path_resolve expandArgv1 w)).
Proof. reflexivity. Qed.

Lemma prepare_again (expandArgv1 : bool) (s : PreExecution) :
  _alreadyPrepared s = true → prepare expandArgv1 s = s.
Proof. intros Hs. unfold prepareMainThreadExecution. by rewrite Hs. Qed.

Lemma prepare_sets_guard (expandArgv1 : bool) (s : PreExecution) :
  _alreadyPrepared (prepare expandArgv1 s) = true.
Proof.
  unfold prepareMainThreadExecution.
  by destruct (_alreadyPrepared s) eqn:Hs.
Qed.

(** The token at index 1 is not expanded into a path. *)
Lemma patchProcessObject_token (w : World) (a0 : string)
    (rest : list string) :
  argv w = a0 :: "PKG_DUMMY_ENTRYPOINT"%string :: rest →
  argv (patchProcessObject path_resolve true w)
  = execPath w :: "PKG_DUMMY_ENTRYPOINT"%string :: rest.
Proof. intros Ha. unfold patchProcessObject. cbn. rewrite Ha. reflexivity. Qed.

End Guard.

(** C9: the guard is false when the process starts and true after any
    invocation of [prepareMainThreadExecution]; an invocation that finds it
    true returns at once and changes nothing, whatever its argument is; so a
    second invocation after a first one leaves the state the first one
    left. *)
Theorem prepareMainThreadExecution_one_shot
    (path_resolve : string → string)
    (remaining_preparation : World → World)
    (w : World) (s : PreExecution) (a b : bool) :
  _alreadyPrepared (process_start w) = false
  ∧ _alreadyPrepared
      (prepareMainThreadExecution path_resolve remaining_preparation a s)
    = true
  ∧ prepareMainThreadExecution path_resolve remaining_preparation b
      (mkPre true w)
    = mkPre true w
  ∧ prepareMainThreadExecution path_resolve remaining_preparation b
      (prepareMainThreadExecution path_resolve remaining_preparation a s)
    = prepareMainThreadExecution path_resolve remaining_preparation a s.
Proof.
  split; [reflexivity|]. split; [apply prepare_sets_guard|].
  split; [reflexivity|]. apply prepare_again, prepare_sets_guard.
Qed.

End BootstrapFacts.

(** ** More on the launcher *)

Module LauncherMore.

Import Launcher LauncherFacts.

Lemma strlen2_None (p : cptr) : strlen2 p = None ↔ NUL ∉ p.
Proof.
  induction p as [|ch p IH]; cbn [strlen2].
  - split; [intros _; apply not_elem_of_nil | done].
  - case_decide as Hch.
    + split; [done|]. intros Hno. exfalso. apply Hno. subst. by left.
    + rewrite not_elem_of_cons. destruct (strlen2 p) as [n|]; cbn.
      * split; [done|]. intros [_ Hno]. by apply IH in Hno.
      * split; [|done]. intros _. split; [congruence | by apply IH].
Qed.

Lemma strlen2_lookup (p : cptr) (n : nat) :
  strlen2 p = Some n ↔
  p !! n = Some NUL ∧ ∀ i ch, i < n → p !! i = Some ch → ch ≠ NUL.
Proof.
  revert n. induction p as [|ch p IH]; intros n; cbn [strlen2].
  - split; [done | by intros [? _]].
  - case_decide as Hch.
    + split.
      * intros [= <-]. subst. split; [done|]. intros; lia.
      * intros [Hn Hbefore]. destruct n as [|n]; [done|].
        exfalso. apply (Hbefore 0 ch); [lia | done | done].
    + split.
      * destruct (strlen2 p) as [k|] eqn:Hk; [|done]. intros [= <-].
        destruct (proj1 (IH k) eq_refl) as [Hn Hbefore].
        split; [done|]. intros [|i] c Hi Hc.
        -- injection Hc as <-. done.
        -- apply (Hbefore i); [lia | done].
      * intros [Hn Hbefore]. destruct n as [|n].
        -- injection Hn as ->. done.
        -- rewrite (proj2 (IH n)); [done|]. split; [done|].
           intros i c Hi Hc. apply (Hbefore (S i)); [lia | done].
Qed.

(** X1: [strlen2] returns the index of the first [NUL] of what its argument
    points to, and is undefined (it reads past the end of the object)
    exactly when there is no [NUL]. *)
Theorem strlen2_first_NUL (p : cptr) :
  (strlen2 p = None ↔ NUL ∉ p)
  ∧ ∀ n : nat,
      strlen2 p = Some n ↔
      p !! n = Some NUL ∧ ∀ i ch, i < n → p !! i = Some ch → ch ≠ NUL.
Proof. split; [apply strlen2_None | apply strlen2_lookup]. Qed.

Lemma adjacent_size_terminated (argv : list cptr) :
  is_Some (adjacent_size argv) → Forall terminated argv.
Proof.
  induction argv as [|p argv IH]; [constructor|].
  cbn [adjacent_size]. unfold strlen.
  destruct (strlen2 p) as [n|] eqn:Hn; cbn; [|by intros [? ?]].
  destruct (adjacent_size argv) as [size|]; cbn; [|by intros [? ?]].
  intros _. constructor; [|by apply IH].
  unfold terminated. destruct (decide (NUL ∈ p)) as [|Hno]; [done|].
  apply strlen2_None in Hno. congruence.
Qed.

(** The block and the pointers [adjacent] gives for the entries it visits. *)
Lemma adjacent_visited (fill : ascii) (argc : nat) (argv : list cptr) :
  argc ≤ length argv →
  Forall terminated (take argc argv) →
  adjacent fill argc argv
  = Some (mkStartCall argc (packed (c_str <$> take argc argv))
                      (positions 0 (c_str <$> take argc argv))).
Proof.
  intros Hargc Hargv. unfold adjacent.
  rewrite decide_True by done. cbn zeta.
  rewrite (adjacent_size_packed _ Hargv). cbn [mbind option_bind].
  pose proof (adjacent_copy_packed _ Hargv []
                (replicate (length (packed (c_str <$> take argc argv))) fill)
                [] (length_replicate _ _)) as Hcopy.
  rewrite !app_nil_r in Hcopy. cbn [app length] in Hcopy.
  rewrite Hcopy. done.
Qed.

Lemma adjacent_defined (fill : ascii) (argc : nat) (argv : list cptr) :
  is_Some (adjacent fill argc argv) →
  argc ≤ length argv ∧ Forall terminated (take argc argv).
Proof.
  unfold adjacent. case_decide as Hargc; [|by intros [? ?]].
  cbn zeta. intros Hsome. split; [done|].
  apply adjacent_size_terminated.
  destruct (adjacent_size (take argc argv)); [by eexists | by destruct Hsome].
Qed.

(** X2: [adjacent] visits the first [argc] entries of [argv]. It is defined
    exactly when the array has that many entries and each of them is a
    terminated string. Then the block it allocates holds the strings of
    these entries in order, each followed by its terminator and nothing
    else, whatever the block held before; its size is the sum of their
    lengths plus one each; [node::Start] gets [argc]; and the strings read
    through the redirected pointers are the strings of the entries. *)
Theorem adjacent_round_trip (fill : ascii) (argc : nat) (argv : list cptr) :
  (is_Some (adjacent fill argc argv)
   ↔ argc ≤ length argv ∧ Forall terminated (take argc argv))
  ∧ ∀ call : StartCall,
      adjacent fill argc argv = Some call →
      start_argc call = argc
      ∧ start_args call = packed (c_str <$> take argc argv)
      ∧ length (start_args call)
        = sum_list ((λ p, length (c_str p) + 1) <$> take argc argv)
      ∧ length (start_argv call) = argc
      ∧ start_strings call = c_str <$> take argc argv.
Proof.
  split.
  - split; [apply adjacent_defined|].
    intros [Hargc Hargv]. rewrite (adjacent_visited fill argc argv) by done.
    by eexists.
  - intros call Hcall.
    destruct (adjacent_defined fill argc argv) as [Hargc Hargv];
      [by rewrite Hcall|].
    rewrite (adjacent_visited fill argc argv Hargc Hargv) in Hcall.
    injection Hcall as <-. cbn [start_argc start_args start_argv].
    split; [done|]. split; [done|]. split; [|split].
    + generalize (take argc argv). clear. intros l.
      induction l as [|p l IH]; [done|].
      rewrite fmap_cons, packed_cons, length_app. cbn [length].
      rewrite IH, fmap_cons. cbn [sum_list sum_list_with id]. lia.
    + rewrite <- (length_take_le argv argc) at 2 by done.
      generalize (take argc argv). clear. intros l. generalize 0.
      induction l as [|p l IH]; intros pos; [done|].
      rewrite fmap_cons. cbn [positions length]. by rewrite IH.
    + apply start_strings_packed, Forall_fmap, Forall_forall.
      intros p _. apply c_str_no_NUL.
Qed.

(** With [argc = 1] on an array of two entries, the block holds the first
    string only. *)
Lemma adjacent_first_of_two (fill : ascii) :
  adjacent fill 1 [literal "a"; literal "b"]
  = Some (mkStartCall 1 (list_ascii_of_string "a" ++ [NUL]) [0]).
Proof. reflexivity. Qed.

(** An [argc] of 3 on the same array reads [argv[2]], past its end. *)
Lemma adjacent_past_the_end (fill : ascii) :
  adjacent fill 3 [literal "a"; literal "b"] = None.
Proof. reflexivity. Qed.

Lemma copy_rest_None (capacity : nat) (rest nargv : list cptr) :
  length nargv ≤ capacity →
  capacity < length nargv + length rest →
  copy_rest capacity nargv rest = None.
Proof.
  revert nargv. induction rest as [|p rest IH]; intros nargv Hle Hcap.
  - simpl in Hcap. lia.
  - cbn [length] in Hcap. cbn [copy_rest]. unfold nargv_put.
    case_decide; [|done]. cbn [mbind option_bind].
    apply IH; rewrite length_app; cbn [length]; lia.
Qed.

Lemma scan_bakery_overflow (capacity : nat) (tail : list ascii)
    (markers : list (list ascii)) :
  Forall marker markers →
  ∀ (fuel : nat) (nargv : list cptr),
    length nargv ≤ capacity →
    capacity < length nargv + length markers →
    scan_bakery fuel capacity nargv (marker_block markers tail) = None.
Proof.
  induction 1 as [|m ms [Hne Hno] _ IH]; intros fuel nargv Hle Hcap.
  - simpl in Hcap. lia.
  - destruct fuel as [|fuel]; [done|].
    cbn [length] in Hcap. cbn [scan_bakery]. rewrite marker_block_cons.
    rewrite strlen2_packed by done. cbn [mbind option_bind].
    rewrite decide_False by (destruct m; [done | simpl; lia]).
    unfold nargv_put. case_decide; [|done]. cbn [mbind option_bind].
    rewrite (cons_middle NUL m), app_assoc.
    rewrite drop_app_length' by (rewrite length_app; simpl; lia).
    apply IH; rewrite length_app; cbn [length]; lia.
Qed.

(** When [reorder] is defined, in terms of what [should_set_dummy]
    answers. *)
Lemma reorder_defined (fill : ascii) (getenv : string → option string)
    (markers : list (list ascii)) (tail : list ascii)
    (argv0 : cptr) (rest : list cptr) :
  Forall marker markers →
  Forall terminated (argv0 :: rest) →
  is_Some (reorder fill getenv (marker_block markers tail) (argv0 :: rest))
  ↔ length markers + (if should_set_dummy getenv then 1 else 0) ≤ 64.
Proof.
  intros Hm Hargv. apply Forall_cons in Hargv as [Harg0 Hrest].
  pose proof (marker_block_length tail markers) as Hfuel.
  pose proof (marker_ptrs_terminated tail markers) as Hptrs.
  pose proof (marker_ptrs_length tail markers) as Hptrs_len.
  assert (Forall terminated [argv0]) as H0 by (by constructor).
  unfold reorder. cbn [lookup list_lookup mbind option_bind length drop].
  rewrite nargv_put_Some by (cbn [length]; lia). cbn [mbind option_bind app].
  rewrite drop_0.
  destruct (decide (1 + length markers ≤ S (length rest) + 64)) as [Hscan|Hscan].
  - rewrite (scan_bakery_markers (S (length rest) + 64) tail markers Hm)
      by (cbn [length]; lia).
    cbn [mbind option_bind].
    destruct (should_set_dummy getenv).
    + unfold nargv_put. case_decide as Hput; cbn [mbind option_bind].
      * rewrite length_app, Hptrs_len in Hput. cbn [length] in Hput.
        destruct (decide (length markers + 1 ≤ 64)) as [Hfit|Hfit].
        -- rewrite copy_rest_Some
             by (cbn [length]; rewrite !length_app, Hptrs_len;
                 cbn [length]; lia).
           cbn [mbind option_bind]. rewrite adjacent_packed.
           ++ split; [done | by eexists].
           ++ repeat apply Forall_app_2; try done.
              constructor; [apply literal_terminated | constructor].
        -- rewrite copy_rest_None
             by (cbn [length]; rewrite !length_app, Hptrs_len;
                 cbn [length]; lia).
           split; [by intros [? ?] | lia].
      * rewrite length_app, Hptrs_len in Hput. cbn [length] in Hput.
        split; [by intros [? ?] | cbn [length] in *; lia].
    + cbn [mbind option_bind].
      destruct (decide (length markers + 0 ≤ 64)) as [Hfit|Hfit].
      * rewrite copy_rest_Some
          by (cbn [length]; rewrite !length_app, Hptrs_len;
              cbn [length]; lia).
        cbn [mbind option_bind]. rewrite adjacent_packed.
        -- split; [done | by eexists].
        -- repeat apply Forall_app_2; done.
      * rewrite copy_rest_None
          by (cbn [length]; rewrite !length_app, Hptrs_len;
              cbn [length]; lia).
        split; [by intros [? ?] | lia].
  - rewrite (scan_bakery_overflow (S (length rest) + 64) tail markers Hm)
      by (cbn [length]; lia).
    split; [by intros [? ?]|].
    destruct (should_set_dummy getenv); lia.
Qed.

(** X3: [nargv] has [argc + 64] entries. For terminated arguments and a
    marker block that holds [markers], [reorder] is defined exactly when the
    markers, and the token in a direct invocation, are at most 64 together:
    63 markers at most in a direct invocation, 64 in a self-invoked one;
    beyond that a pointer is stored past the end of [nargv]. *)
Theorem reorder_capacity (fill : ascii) (getenv : string → option string)
    (markers : list (list ascii)) (tail : list ascii)
    (argv0 : cptr) (rest : list cptr) :
  Forall marker markers →
  Forall terminated (argv0 :: rest) →
  is_Some (reorder fill getenv (marker_block markers tail) (argv0 :: rest))
  ↔ length markers + (if decide (self_invoked getenv) then 0 else 1) ≤ 64.
Proof.
  intros Hm Hargv.
  rewrite (reorder_defined fill getenv markers tail argv0 rest Hm Hargv).
  rewrite should_set_dummy_direct.
  destruct (decide (self_invoked getenv)) as [Hs|Hs].
  - by rewrite bool_decide_eq_false_2 by tauto.
  - by rewrite bool_decide_eq_true_2 by done.
Qed.

Lemma reorder_capacity_witness :
  is_Some (reorder "x" env_self_invoked
             (marker_block (replicate 64 [ascii_of_nat 97]) [])
             [literal "app"; literal "run"])
  ↔ length (replicate 64 [ascii_of_nat 97])
    + (if decide (self_invoked env_self_invoked) then 0 else 1) ≤ 64.
Proof.
  apply (reorder_capacity "x" env_self_invoked
           (replicate 64 [ascii_of_nat 97]) []
           (literal "app") [literal "run"]).
  - apply Forall_replicate. split; [discriminate|].
    apply (bool_decide_unpack _). vm_compute. exact I.
  - repeat (constructor; [apply literal_terminated|]). constructor.
Defined.

Lemma scan_bakery_unterminated (capacity : nat)
    (markers : list (list ascii)) :
  Forall marker markers →
  ∀ (fuel : nat) (nargv : list cptr),
    scan_bakery fuel capacity nargv (packed markers) = None.
Proof.
  induction 1 as [|m ms [Hne Hno] _ IH]; intros fuel nargv.
  - by destruct fuel.
  - destruct fuel as [|fuel]; [done|].
    cbn [scan_bakery]. rewrite packed_cons.
    rewrite strlen2_packed by done. cbn [mbind option_bind].
    rewrite decide_False by (destruct m; [done | simpl; lia]).
    destruct (nargv_put capacity nargv _) as [nargv1|]; [|done].
    cbn [mbind option_bind].
    rewrite (cons_middle NUL m), app_assoc.
    rewrite drop_app_length' by (rewrite length_app; simpl; lia).
    apply IH.
Qed.

(** X4: the scan of [reorder] stops only at an empty string. On a marker
    block that ends with its last marker string, without an empty string
    behind it, [reorder] reads past the end of the block, whatever the
    arguments and the environment are. *)
Theorem reorder_unterminated_block
    (fill : ascii) (getenv : string → option string)
    (markers : list (list ascii)) (argv : list cptr) :
  Forall marker markers →
  reorder fill getenv (packed markers) argv = None.
Proof.
  intros Hm. unfold reorder.
  destruct (argv !! 0) as [argv0|]; [|done]. cbn [mbind option_bind].
  destruct (nargv_put _ [] argv0) as [nargv0|]; [|done].
  cbn [mbind option_bind].
  by rewrite (scan_bakery_unterminated _ markers Hm).
Qed.

Lemma reorder_unterminated_block_witness :
  reorder "x" env_direct (packed sample_markers) sample_argv = None.
Proof.
  apply (reorder_unterminated_block "x" env_direct sample_markers sample_argv).
  repeat constructor; try discriminate;
    apply (bool_decide_unpack _); vm_compute; exact I.
Defined.

End LauncherMore.

(** ** More on the bootstrap loader *)

Module BootstrapMore.

Import Bootstrap BootstrapFacts.

(** X5: [pkg.js] runs the preparation of the main thread first, so when it
    is done the guard is set: a later call of
    [prepareMainThreadExecution], with either argument, leaves the state
    [pkg.js] left; and [pkg.js] itself, started on a prepared state, goes
    straight to the loader without preparing again. *)
Theorem pkg_js_prepares_once
    (run_prelude :
       list byte → ScriptOptions → list Arg → World → World * bool)
    (path_resolve : string → string)
    (remaining_preparation : World → World)
    (b : Baked) (s : PreExecution) (w : World) (expandArgv1 : bool) :
  _alreadyPrepared
    (pkg_js run_prelude path_resolve remaining_preparation b s).1 = true
  ∧ prepareMainThreadExecution path_resolve remaining_preparation expandArgv1
      (pkg_js run_prelude path_resolve remaining_preparation b s).1
    = (pkg_js run_prelude path_resolve remaining_preparation b s).1
  ∧ pkg_js run_prelude path_resolve remaining_preparation b (mkPre true w)
    = (mkPre true (load run_prelude b w).1, (load run_prelude b w).2).
Proof.
  assert (_alreadyPrepared
            (pkg_js run_prelude path_resolve remaining_preparation b s).1
          = true) as Hguard.
  { unfold pkg_js. cbn [fst _alreadyPrepared]. apply prepare_sets_guard. }
  split; [exact Hguard|]. split; [|reflexivity].
  by apply prepare_again.
Qed.

Lemma patchProcessObject_argv0 (path_resolve : string → string)
    (expandArgv1 : bool) (w : World) :
  argv (patchProcessObject path_resolve expandArgv1 w) !! 0
  = Some (execPath w).
Proof.
  unfold patchProcessObject. cbn [argv set_argv].
  destruct (argv w) as [|a0 [|a1 rest]]; cbn; [done | done |].
  by destruct (_ && _).
Qed.

(** X6: [patchProcessObject] puts the path of the executable at index 0 of
    [process.argv] (adding it to an empty array) and changes nothing from
    index 2 on. The argument at index 1 is replaced by its full path only
    when [expandArgv1] is set and the argument is not empty, does not start
    with [-] and is not the token [PKG_DUMMY_ENTRYPOINT]; otherwise it stays
    as it is. *)
Theorem patchProcessObject_argv (path_resolve : string → string)
    (expandArgv1 : bool) (w : World) :
  argv (patchProcessObject path_resolve expandArgv1 w) !! 0
  = Some (execPath w)
  ∧ drop 2 (argv (patchProcessObject path_resolve expandArgv1 w))
    = drop 2 (argv w)
  ∧ length (argv (patchProcessObject path_resolve expandArgv1 w))
    = length (argv w) `max` 1
  ∧ ∀ argv1 : string,
      argv w !! 1 = Some argv1 →
      argv (patchProcessObject path_resolve expandArgv1 w) !! 1
      = Some (if decide (expandArgv1 = true
                         ∧ argv1 ≠ ""%string
                         ∧ String.prefix "-" argv1 = false
                         ∧ argv1 ≠ "PKG_DUMMY_ENTRYPOINT"%string)
              then path_resolve argv1 else argv1).
Proof.
  split; [apply patchProcessObject_argv0|].
  unfold patchProcessObject. cbn [argv set_argv].
  destruct (argv w) as [|a0 [|a1 rest]]; cbn [set_argv0 lookup list_lookup].
  - cbn. repeat split; try done.
  - cbn. repeat split; try done.
  - destruct (decide (expandArgv1 = true
                      ∧ a1 ≠ ""%string
                      ∧ String.prefix "-" a1 = false
                      ∧ a1 ≠ "PKG_DUMMY_ENTRYPOINT"%string))
      as [(-> & Hne & Hdash & Htoken)|Hnot].
    + rewrite Hdash, !bool_decide_eq_true_2 by done. cbn.
      repeat split; try done. intros ? [= <-]. by rewrite decide_True.
    + destruct (expandArgv1 && bool_decide (a1 ≠ ""%string)
                && negb (String.prefix "-" a1)
                && bool_decide (a1 ≠ "PKG_DUMMY_ENTRYPOINT"%string))
        eqn:Hcond.
      * exfalso. apply Hnot.
        apply andb_true_iff in Hcond as [Hcond Htoken].
        apply andb_true_iff in Hcond as [Hcond Hdash].
        apply andb_true_iff in Hcond as [Hexpand Hne].
        apply bool_decide_eq_true in Htoken, Hne.
        apply negb_true_iff in Hdash. done.
      * cbn. repeat split; try done. intros ? [= <-]. by rewrite decide_False.
Qed.

(** X7: a direct invocation of a build without prelude, when the other
    preparation steps leave the process alone: the launcher's token at index
    1 keeps [patchProcessObject] from expanding anything, the loader takes
    the token out, and the application finds the path of the executable
    followed by its own arguments, unchanged. *)
Theorem direct_unpatched_argv
    (run_prelude :
       list byte → ScriptOptions → list Arg → World → World * bool)
    (path_resolve : string → string)
    (b : Baked) (w : World) (image : list byte)
    (a0 : string) (rest : list string) :
  or_zero (PRELUDE_POSITION b) = 0%Z →
  disk w !! execPath w = Some image →
  argv w = a0 :: "PKG_DUMMY_ENTRYPOINT"%string :: rest →
  (pkg_js run_prelude path_resolve (λ w, w) b (process_start w)).2 = Finished
  ∧ argv (world (pkg_js run_prelude path_resolve (λ w, w) b
                   (process_start w)).1)
    = execPath w :: rest.
Proof.
  intros Hz Hdisk Hargv. unfold pkg_js.
  rewrite prepare_first. cbn [world _alreadyPrepared fst snd].
  set (w1 := patchProcessObject path_resolve true w).
  assert (argv w1 = execPath w :: "PKG_DUMMY_ENTRYPOINT"%string :: rest)
    as Hargv1 by (eapply patchProcessObject_token; exact Hargv).
  assert (execPath w1 = execPath w ∧ disk w1 = disk w) as [Hexec Hdisk1].
  { unfold w1, patchProcessObject. cbn. rewrite Hargv. cbn. done. }
  rewrite (load_zero run_prelude b w1 image) by (by rewrite ?Hexec, ?Hdisk1).
  cbn. by rewrite Hargv1.
Qed.

Lemma direct_unpatched_argv_witness :
  (pkg_js idle_prelude (λ p, ("/cwd/" +:+ p)%string) (λ w, w) unpatched
     (process_start (scenario_world [x01; x02]))).2 = Finished
  ∧ argv (world (pkg_js idle_prelude (λ p, ("/cwd/" +:+ p)%string) (λ w, w)
                   unpatched (process_start (scenario_world [x01; x02]))).1)
    = execPath (scenario_world [x01; x02]) :: ["run"%string].
Proof.
  apply (direct_unpatched_argv idle_prelude (λ p, ("/cwd/" +:+ p)%string)
           unpatched (scenario_world [x01; x02]) [x01; x02]
           "/app" ["run"%string]);
    reflexivity.
Defined.

(** X8: a short read ends the loader in [process.exit(1)] right after the
    two lines on stderr: the descriptor it opened stays open, the two
    functions of [fs] are not assigned, and [process.argv] keeps all its
    elements. *)
Theorem load_short_read
    (run_prelude :
       list byte → ScriptOptions → list Arg → World → World * bool)
    (b : Baked) (w : World) (image : list byte) :
  or_zero (PRELUDE_POSITION b) ≠ 0%Z →
  (0 ≤ or_zero (PRELUDE_SIZE b))%Z →
  disk w !! execPath w = Some image →
  length (prelude_range b image) < Z.to_nat (or_zero (PRELUDE_SIZE b)) →
  (load run_prelude b w).2 = Exited 1
  ∧ stderr (load run_prelude b w).1
    = stderr w ++ short_read_report b w (length (prelude_range b image))
  ∧ fds (load run_prelude b w).1
    = <[fresh (dom (fds w)) := execPath w]> (fds w)
  ∧ fs (load run_prelude b w).1 = fs w
  ∧ argv (load run_prelude b w).1 = argv w.
Proof.
  intros Hpos Hsize Hdisk Hshort. unfold load.
  rewrite (openSync_Some w (execPath w) image Hdisk).
  rewrite (readPrelude_nonzero b _ _ image);
    [| done | done | cbn; apply lookup_insert_eq | done].
  rewrite decide_True by lia. done.
Qed.

Lemma load_short_read_witness :
  (load idle_prelude scenario_baked (scenario_world [x01; x02])).2 = Exited 1
  ∧ stderr (load idle_prelude scenario_baked (scenario_world [x01; x02])).1
    = stderr (scenario_world [x01; x02])
        ++ short_read_report scenario_baked (scenario_world [x01; x02])
             (length (prelude_range scenario_baked [x01; x02]))
  ∧ fds (load idle_prelude scenario_baked (scenario_world [x01; x02])).1
    = <[fresh (dom (fds (scenario_world [x01; x02])))
        := execPath (scenario_world [x01; x02])]>
        (fds (scenario_world [x01; x02]))
  ∧ fs (load idle_prelude scenario_baked (scenario_world [x01; x02])).1
    = fs (scenario_world [x01; x02])
  ∧ argv (load idle_prelude scenario_baked (scenario_world [x01; x02])).1
    = argv (scenario_world [x01; x02]).
Proof.
  apply (load_short_read idle_prelude scenario_baked
           (scenario_world [x01; x02]) [x01; x02]).
  - vm_compute. discriminate.
  - vm_compute. discriminate.
  - reflexivity.
  - vm_compute. lia.
Defined.

End BootstrapMore.

(** ** More on the package reader *)

Module CjsLoaderFacts.

Import Bootstrap CjsLoader.

(** X9: a [package.json] that the reader does not find is remembered as
    [false]: [readPackage] returns [false] and enters it in the cache, and
    from then on every call for the same directory returns [false] from the
    cache without reading, whatever function [fs.internalModuleReadJSON]
    has become in the meantime (even none at all). *)
Theorem readPackage_remembers_missing
    (P : Type) (json_path toNamespacedPath : string → string)
    (call : nat → string → option string)
    (parse_package :
       string → string → gmap string (Cached P)
       → option (Cached P * gmap string (Cached P)))
    (w : World) (packageJsonCache : gmap string (Cached P))
    (requestPath : string) :
  packageJsonCache !! json_path requestPath = None →
  internalModuleReadJSON (option string) call w
    (toNamespacedPath (json_path requestPath)) = Some None →
  readPackage P json_path toNamespacedPath call parse_package w
    packageJsonCache requestPath
  = Some (CachedFalse,
          <[json_path requestPath := CachedFalse]> packageJsonCache)
  ∧ ∀ (w' : World) (call' : nat → string → option string),
      readPackage P json_path toNamespacedPath call' parse_package w'
        (<[json_path requestPath := CachedFalse]> packageJsonCache)
        requestPath
      = Some (CachedFalse,
              <[json_path requestPath := CachedFalse]> packageJsonCache).
Proof.
  intros Hcache Hread. unfold readPackage. split.
  - rewrite Hcache, Hread. done.
  - intros w' call'. by rewrite lookup_insert_eq.
Qed.

Lemma readPackage_remembers_missing_witness :
  readPackage string package_json (λ p, p) one_file_reader store_rest
    patched_world ∅ "/app/node_modules/y"
  = Some (CachedFalse,
          <[package_json "/app/node_modules/y" := CachedFalse]> ∅)
  ∧ ∀ (w' : World) (call' : nat → string → option string),
      readPackage string package_json (λ p, p) call' store_rest w'
        (<[package_json "/app/node_modules/y" := CachedFalse]> ∅)
        "/app/node_modules/y"
      = Some (CachedFalse,
              <[package_json "/app/node_modules/y" := CachedFalse]> ∅).
Proof.
  apply (readPackage_remembers_missing string package_json (λ p, p)
           one_file_reader store_rest patched_world ∅ "/app/node_modules/y");
    reflexivity.
Defined.

End CjsLoaderFacts.

(** ** More on the sourceless-script changes *)

Module V8More.

Import V8 V8Facts.

(** X10: [DisableCompilationForSourcelessUse] after
    [EnableCompilationForSourcelessUse] gives both flags the values they had,
    whatever the saved values were before. The saved values are one pair for
    the whole engine: a second [Enable] before the [Disable] overwrites them,
    and afterwards no number of [Disable] calls brings the first values
    back; lazy compilation stays off and the predictable mode on. *)
Theorem flag_controller_single_slot (e : Engine) :
  FLAG_lazy (DisableCompilationForSourcelessUse
               (EnableCompilationForSourcelessUse e)) = FLAG_lazy e
  ∧ FLAG_predictable (DisableCompilationForSourcelessUse
                        (EnableCompilationForSourcelessUse e))
    = FLAG_predictable e
  ∧ heap (DisableCompilationForSourcelessUse
            (EnableCompilationForSourcelessUse e)) = heap e
  ∧ ∀ n : nat,
      FLAG_lazy
        (Nat.iter (S n) DisableCompilationForSourcelessUse
           (EnableCompilationForSourcelessUse
              (EnableCompilationForSourcelessUse e))) = false
      ∧ FLAG_predictable
          (Nat.iter (S n) DisableCompilationForSourcelessUse
             (EnableCompilationForSourcelessUse
                (EnableCompilationForSourcelessUse e))) = true.
Proof.
  repeat split; try reflexivity.
  - induction n as [|n IH]; [reflexivity|].
    change (Nat.iter (S (S n)) ?f ?x) with (f (Nat.iter (S n) f x)).
    cbn [DisableCompilationForSourcelessUse FLAG_lazy].
    clear IH. induction n as [|n IH]; [reflexivity | exact IH].
  - induction n as [|n IH]; [reflexivity|].
    change (Nat.iter (S (S n)) ?f ?x) with (f (Nat.iter (S n) f x)).
    cbn [DisableCompilationForSourcelessUse FLAG_predictable].
    clear IH. induction n as [|n IH]; [reflexivity | exact IH].
Qed.

Lemma set_source_unit_script (h : Heap) (sid : nat) (v : Source) (u : nat) :
  unit_script (set_source h sid v) u = unit_script h u.
Proof. reflexivity. Qed.

(** X11: [FixSourcelessScript] changes one thing: the source of the script
    of the unit. The functions and all other scripts stay as they were, a
    second call changes nothing more, and afterwards every function of the
    heap that belongs to that script, not only the one handed in, is
    sourceless: [ParseFunction] returns false for it and
    [ShouldFlushBytecode] returns false in every mode. *)
Theorem FixSourcelessScript_whole_script
    (h h' : Heap) (unbound_script : nat) :
  FixSourcelessScript h unbound_script = Some h' →
  sfis h' = sfis h
  ∧ dom (scripts h') = dom (scripts h)
  ∧ (∀ sid : nat,
       unit_script h unbound_script ≠ Some sid →
       scripts h' !! sid = scripts h !! sid)
  ∧ FixSourcelessScript h' unbound_script = Some h'
  ∧ ∀ (f : nat) (sfi : SharedFunctionInfo),
      sfis h' !! f = Some sfi →
      script sfi = unit_script h unbound_script →
      (∀ parse_source : string → bool,
         ParseFunction parse_source h' sfi = Some false)
      ∧ ∀ mode : BytecodeFlushMode,
          ShouldFlushBytecode h' sfi mode = Some false.
Proof.
  intros Hfix. unfold FixSourcelessScript in Hfix.
  destruct (sfis h !! unbound_script) as [fi|] eqn:Hfi; [|done].
  cbn in Hfix. destruct (script fi) as [sid|] eqn:Hsid; [|done].
  cbn in Hfix. destruct (scripts h !! sid) as [scr|] eqn:Hscr; [|done].
  cbn in Hfix. injection Hfix as <-.
  assert (unit_script h unbound_script = Some sid) as Hu
    by (unfold unit_script; rewrite Hfi; done).
  assert (scripts (set_source h sid SourceUndefined) !! sid
          = Some (mkScript SourceUndefined)) as Hundef
    by apply lookup_insert_eq.
  rewrite Hu. split; [reflexivity|]. split; [|split; [|split]].
  - cbn. rewrite dom_insert_L.
    apply subseteq_union_1_L, singleton_subseteq_l, elem_of_dom.
    by eexists.
  - intros sid' Hne. cbn. apply lookup_insert_ne. congruence.
  - unfold FixSourcelessScript. cbn [sfis set_source]. rewrite Hfi. cbn.
    rewrite Hsid. cbn. rewrite lookup_insert_eq. cbn.
    unfold set_source. cbn. by rewrite insert_insert_eq.
  - intros f sfi _ Hscript. split.
    + intros parse_source. by eapply ParseFunction_sourceless.
    + intros mode. by eapply ShouldFlushBytecode_sourceless.
Qed.

Lemma FixSourcelessScript_whole_script_witness :
  sfis sourceless_heap = sfis sourced_heap
  ∧ dom (scripts sourceless_heap) = dom (scripts sourced_heap)
  ∧ (∀ sid : nat,
       unit_script sourced_heap 1 ≠ Some sid →
       scripts sourceless_heap !! sid = scripts sourced_heap !! sid)
  ∧ FixSourcelessScript sourceless_heap 1 = Some sourceless_heap
  ∧ ∀ (f : nat) (sfi : SharedFunctionInfo),
      sfis sourceless_heap !! f = Some sfi →
      script sfi = unit_script sourced_heap 1 →
      (∀ parse_source : string → bool,
         ParseFunction parse_source sourceless_heap sfi = Some false)
      ∧ ∀ mode : BytecodeFlushMode,
          ShouldFlushBytecode sourceless_heap sfi mode = Some false.
Proof.
  apply (FixSourcelessScript_whole_script sourced_heap sourceless_heap 1).
  vm_compute. reflexivity.
Defined.

(** X12: the lines the patch adds to [ShouldFlushBytecode] only ever turn
    an answer into false. Whatever the lines above the hunk do in a call: a
    call that answers true answers true without the added lines as well; for
    a function without script, or whose script has its source text, the call
    answers what it answers without them; and where the two differ, the call
    has reached the hunk with a bytecode array whose script has no source
    (or is no script, where the added cast is undefined). *)
Theorem ShouldFlushBytecode_added_lines (before_hunk : option bool)
    (h : Heap) (sfi : SharedFunctionInfo) (mode : BytecodeFlushMode) :
  (from_entry before_hunk (ShouldFlushBytecode h sfi mode) = Some true →
   from_entry before_hunk (Some (ShouldFlushBytecode_unpatched sfi mode))
   = Some true)
  ∧ ((script sfi = None
      ∨ ∃ sid text,
          script sfi = Some sid
          ∧ scripts h !! sid = Some (mkScript (SourceString text))) →
     from_entry before_hunk (ShouldFlushBytecode h sfi mode)
     = from_entry before_hunk (Some (ShouldFlushBytecode_unpatched sfi mode)))
  ∧ (from_entry before_hunk (ShouldFlushBytecode h sfi mode)
     ≠ from_entry before_hunk (Some (ShouldFlushBytecode_unpatched sfi mode)) →
     before_hunk = None
     ∧ (∃ after_hunk, function_data sfi = BytecodeArray after_hunk)
     ∧ ∃ sid,
         script sfi = Some sid
         ∧ (scripts h !! sid = Some (mkScript SourceUndefined)
            ∧ ShouldFlushBytecode h sfi mode = Some false
            ∧ ShouldFlushBytecode_unpatched sfi mode = true
            ∨ scripts h !! sid = None
              ∧ ShouldFlushBytecode h sfi mode = None)).
Proof.
  destruct before_hunk as [r|]; cbn [from_entry]; [by repeat split|].
  unfold ShouldFlushBytecode, ShouldFlushBytecode_unpatched.
  destruct (function_data sfi) as [after_hunk|]; [|by repeat split].
  destruct (script sfi) as [sid|]; [|by repeat split].
  destruct (scripts h !! sid) as [[[|text]]|] eqn:Hs; cbn.
  - split; [done|]. split.
    + intros [|(? & ? & [= <-] & ?)]; [done | congruence].
    + intros Hne. split; [done|]. split; [by eexists|].
      exists sid. split; [done|]. left. split; [done|]. split; [done|].
      by destruct mode, after_hunk.
  - by repeat split.
  - split; [done|]. split.
    + intros [|(? & ? & [= <-] & ?)]; [done | congruence].
    + intros _. split; [done|]. split; [by eexists|].
      exists sid. split; [done|]. by right.
Qed.

(** In the stress mode, and whenever the lines after the hunk answer true,
    the added lines are what keeps the bytecode of a sourceless script. *)
Lemma ShouldFlushBytecode_stress_sourceless :
  ShouldFlushBytecode sourceless_heap (mkSFI (BytecodeArray false) (Some 7))
    kStressFlushBytecode = Some false
  ∧ ShouldFlushBytecode_unpatched (mkSFI (BytecodeArray false) (Some 7))
      kStressFlushBytecode = true.
Proof. split; reflexivity. Qed.

End V8More.

(** ** More on the cache validator *)

Module CodeSerializerMore.

Import CodeSerializer CodeSerializerFacts.

(** X13: the patch takes one outcome away and changes nothing else: whenever
    the check before the patch returns something other than
    [SOURCE_MISMATCH], the patched check returns the same, for any source
    hash the caller expects; and the check before the patch returns
    [SOURCE_MISMATCH] exactly for a blob with the right magic number and
    version whose source hash is not the expected one. *)
Theorem SanityCheck_patch_only_drops_source
    (kMagicNumber Version_Hash FlagList_Hash kHeaderSize : Z)
    (Checksum : list Z → Z)
    (b : SerializedCodeData) (e e' : Z) :
  (SanityCheck_unpatched kMagicNumber Version_Hash FlagList_Hash kHeaderSize
     Checksum b e ≠ SOURCE_MISMATCH →
   SanityCheck kMagicNumber Version_Hash FlagList_Hash kHeaderSize Checksum
     b e'
   = SanityCheck_unpatched kMagicNumber Version_Hash FlagList_Hash
       kHeaderSize Checksum b e)
  ∧ (SanityCheck_unpatched kMagicNumber Version_Hash FlagList_Hash
       kHeaderSize Checksum b e = SOURCE_MISMATCH
     ↔ magic_number b = kMagicNumber
       ∧ version_hash b = Version_Hash
       ∧ source_hash b ≠ e).
Proof.
  unfold SanityCheck_unpatched, SanityCheck, check_payload. cbv zeta. split.
  - repeat case_decide; congruence.
  - repeat case_decide; split; try done; try tauto; try congruence;
      intros (? & ? & ?); congruence.
Qed.

(** X14: the checks are made in a fixed order, and the first that fails
    decides: a wrong magic number is [MAGIC_NUMBER_MISMATCH] whatever else is
    wrong with the blob, then a wrong version hash is [VERSION_MISMATCH], then
    a wrong flags hash is [FLAGS_MISMATCH]; and a blob that is accepted has
    all three right. *)
Theorem SanityCheck_first_failure
    (kMagicNumber Version_Hash FlagList_Hash kHeaderSize : Z)
    (Checksum : list Z → Z)
    (b : SerializedCodeData) (e : Z) :
  (magic_number b ≠ kMagicNumber →
   SanityCheck kMagicNumber Version_Hash FlagList_Hash kHeaderSize Checksum
     b e = MAGIC_NUMBER_MISMATCH)
  ∧ (magic_number b = kMagicNumber → version_hash b ≠ Version_Hash →
     SanityCheck kMagicNumber Version_Hash FlagList_Hash kHeaderSize Checksum
       b e = VERSION_MISMATCH)
  ∧ (magic_number b = kMagicNumber → version_hash b = Version_Hash →
     flags_hash b ≠ FlagList_Hash →
     SanityCheck kMagicNumber Version_Hash FlagList_Hash kHeaderSize Checksum
       b e = FLAGS_MISMATCH)
  ∧ (SanityCheck kMagicNumber Version_Hash FlagList_Hash kHeaderSize Checksum
       b e = OK →
     magic_number b = kMagicNumber
     ∧ version_hash b = Version_Hash
     ∧ flags_hash b = FlagList_Hash).
Proof.
  unfold SanityCheck, check_payload. cbv zeta.
  repeat split; repeat case_decide; try done; try congruence;
    destruct (decide (magic_number b = kMagicNumber));
    destruct (decide (version_hash b = Version_Hash));
    destruct (decide (flags_hash b = FlagList_Hash)); tauto.
Qed.

End CodeSerializerMore.

(** ** More on the script host binding *)

Module ContextifyMore.

Import V8 Contextify ContextifyFacts.

(** X15: whenever [New] returns normally, both flags have the values they
    had before the call, for every combination of [sourceless],
    [produceCachedData] and [cachedData]; and in a sourceless call that
    produces a cache the compile itself ran with lazy compilation off and
    the predictable mode on. *)
Theorem New_return_restores_flags
    (CompileUnboundScript :
       Engine → string → option (list Z) → CompileOptions → CompileOutcome)
    (CreateCodeCache : Heap → nat → option (list Z))
    (e e' : Engine) (a : NewArgs) (this : ContextifyScript) :
  New CompileUnboundScript CreateCodeCache e a = Some (e', this, Returned) →
  FLAG_lazy e' = FLAG_lazy e
  ∧ FLAG_predictable e' = FLAG_predictable e
  ∧ (sourceless a = true → produce_cached_data a = true →
     FLAG_lazy (engine_at_compile e a) = false
     ∧ FLAG_predictable (engine_at_compile e a) = true).
Proof.
  intros Hnew.
  destruct (New_returned_flags _ _ _ _ _ _ Hnew) as [Hlazy Hpred].
  split; [exact Hlazy|]. split; [exact Hpred|].
  apply engine_at_compile_sourceless.
Qed.

Lemma New_return_restores_flags_witness :
  FLAG_lazy accepted_engine = FLAG_lazy default_engine
  ∧ FLAG_predictable accepted_engine = FLAG_predictable default_engine
  ∧ (sourceless consume_sourceless = true →
     produce_cached_data consume_sourceless = true →
     FLAG_lazy (engine_at_compile default_engine consume_sourceless) = false
     ∧ FLAG_predictable (engine_at_compile default_engine consume_sourceless)
       = true).
Proof.
  apply (New_return_restores_flags accepting_engine no_code_cache
           default_engine accepted_engine consume_sourceless
           (mkCS (Some 0) (Some false) None None)).
  vm_compute. reflexivity.
Defined.

(** X16: without [sourceless] the patch changes nothing in [New]: the engine
    compiles with the flags as they are, [New] itself is always defined,
    leaves the flags and the saved flags as they were and the heap exactly as
    the engine left it, keeps the script the engine gave, and is rethrown
    exactly when the engine gave none. *)
Theorem New_without_sourceless
    (CompileUnboundScript :
       Engine → string → option (list Z) → CompileOptions → CompileOutcome)
    (CreateCodeCache : Heap → nat → option (list Z))
    (e : Engine) (a : NewArgs) :
  sourceless a = false →
  ∃ (this : ContextifyScript) (c : Completion),
    New CompileUnboundScript CreateCodeCache e a
    = Some (with_heap e
              (heap_after
                 (CompileUnboundScript e (code a) (cached_data a)
                    (compile_options_of a))),
            this, c)
    ∧ script_ this
      = v8_script (CompileUnboundScript e (code a) (cached_data a)
                     (compile_options_of a))
    ∧ (c = Rethrown
       ↔ v8_script (CompileUnboundScript e (code a) (cached_data a)
                      (compile_options_of a)) = None).
Proof.
  intros Hs. unfold New, engine_at_compile. rewrite Hs. cbn.
  destruct (v8_script _) as [u|] eqn:Hu.
  - destruct (compile_options_of a), (produce_cached_data a);
      eexists _, _; (split; [reflexivity|]); (split; [done|]); done.
  - eexists _, _. split; [reflexivity|]. split; done.
Qed.

Lemma New_without_sourceless_witness :
  ∃ (this : ContextifyScript) (c : Completion),
    New accepting_engine no_code_cache default_engine
      (VmScript.prelude_compile "process.exit()")
    = Some (with_heap default_engine
              (heap_after
                 (accepting_engine default_engine
                    (code (VmScript.prelude_compile "process.exit()"))
                    (cached_data (VmScript.prelude_compile "process.exit()"))
                    (compile_options_of
                       (VmScript.prelude_compile "process.exit()")))),
            this, c)
    ∧ script_ this
      = v8_script
          (accepting_engine default_engine
             (code (VmScript.prelude_compile "process.exit()"))
             (cached_data (VmScript.prelude_compile "process.exit()"))
             (compile_options_of (VmScript.prelude_compile "process.exit()")))
    ∧ (c = Rethrown
       ↔ v8_script
           (accepting_engine default_engine
              (code (VmScript.prelude_compile "process.exit()"))
              (cached_data (VmScript.prelude_compile "process.exit()"))
              (compile_options_of
                 (VmScript.prelude_compile "process.exit()"))) = None).
Proof.
  apply (New_without_sourceless accepting_engine no_code_cache default_engine
           (VmScript.prelude_compile "process.exit()")).
  reflexivity.
Defined.

(** X17: a sourceless call that produces a cache (and is given none) does
    not erase the source: [FixSourcelessScript] is not called, the heap is
    the one the engine left, the cache produced from it is returned with
    [cachedDataProduced], and the flags are back to what they were. *)
Theorem New_produce_keeps_source
    (CompileUnboundScript :
       Engine → string → option (list Z) → CompileOptions → CompileOutcome)
    (CreateCodeCache : Heap → nat → option (list Z))
    (e : Engine) (a : NewArgs) (unbound : nat) :
  sourceless a = true →
  produce_cached_data a = true →
  cached_data a = None →
  v8_script (outcome_of CompileUnboundScript e a) = Some unbound →
  ∃ e' : Engine,
    New CompileUnboundScript CreateCodeCache e a
    = Some (e',
            mkCS (Some unbound) None
              (Some (bool_decide
                       (is_Some
                          (CreateCodeCache
                             (heap_after (outcome_of CompileUnboundScript e a))
                             unbound))))
              (CreateCodeCache
                 (heap_after (outcome_of CompileUnboundScript e a)) unbound),
            Returned)
    ∧ heap e' = heap_after (outcome_of CompileUnboundScript e a)
    ∧ FLAG_lazy e' = FLAG_lazy e
    ∧ FLAG_predictable e' = FLAG_predictable e.
Proof.
  unfold New, outcome_of, engine_at_compile, compile_options_of.
  intros -> -> -> ->. cbn. eexists. split; [reflexivity|]. done.
Qed.

Lemma New_produce_keeps_source_witness :
  ∃ e' : Engine,
    New accepting_engine no_code_cache default_engine
      (produce_sourceless "f()")
    = Some (e',
            mkCS (Some 0) None
              (Some (bool_decide
                       (is_Some
                          (no_code_cache
                             (heap_after
                                (outcome_of accepting_engine default_engine
                                   (produce_sourceless "f()")))
                             0))))
              (no_code_cache
                 (heap_after
                    (outcome_of accepting_engine default_engine
                       (produce_sourceless "f()"))) 0),
            Returned)
    ∧ heap e'
      = heap_after
          (outcome_of accepting_engine default_engine
             (produce_sourceless "f()"))
    ∧ FLAG_lazy e' = FLAG_lazy default_engine
    ∧ FLAG_predictable e' = FLAG_predictable default_engine.
Proof.
  apply (New_produce_keeps_source accepting_engine no_code_cache
           default_engine (produce_sourceless "f()") 0);
    vm_compute; reflexivity.
Defined.

End ContextifyMore.

(** ** The build script *)

Module BuildFacts.

Import Build.

Lemma append_String (c : ascii) (s r : string) :
  String c s +:+ r = String c (s +:+ r).
Proof. reflexivity. Qed.

Lemma leading_digits_numeral (d : Decimal.uint) (rest : string) :
  leading_digits rest = ""%string →
  leading_digits (NilEmpty.string_of_uint d +:+ rest)
  = NilEmpty.string_of_uint d.
Proof.
  intros Hrest.
  induction d; [exact Hrest | ..];
    cbn [NilEmpty.string_of_uint]; rewrite append_String;
    cbn [leading_digits];
    match goal with
    | |- context [is_digit ?c] => change (is_digit c) with true
    end;
    cbv iota; by rewrite IHd.
Qed.

Lemma to_uint_not_Nil (n : N) : N.to_uint n ≠ Decimal.Nil.
Proof.
  destruct n as [|p]; [discriminate|].
  apply DecimalPos.Unsigned.to_uint_nonnil.
Qed.

Lemma numeral_NilEmpty (n : N) :
  numeral n = NilEmpty.string_of_uint (N.to_uint n).
Proof.
  unfold numeral, NilZero.string_of_uint.
  pose proof (to_uint_not_Nil n). by destruct (N.to_uint n).
Qed.

(** A numeral starts with a digit. *)
Lemma numeral_head (n : N) :
  ∃ c s, numeral n = String c s ∧ is_digit c = true.
Proof.
  rewrite numeral_NilEmpty. pose proof (to_uint_not_Nil n).
  destruct (N.to_uint n); [done|..]; cbn; eexists _, _; split; done.
Qed.

Lemma getMajor_of_numeral (n : N) (rest : string) :
  (Z.of_N n < 2 ^ 31)%Z →
  leading_digits rest = ""%string →
  getMajor (numeral n +:+ rest) = Z.of_N n.
Proof.
  intros Hn Hrest. unfold getMajor, match_version.
  destruct (numeral_head n) as (c & s & Hhead & Hc).
  assert (c ≠ "v"%char) as Hv by (intros ->; done).
  assert (leading_digits (numeral n +:+ rest) = numeral n) as Hlead.
  { rewrite numeral_NilEmpty. by apply leading_digits_numeral. }
  assert (match (numeral n +:+ rest)%string with
          | String "v" s' => s'
          | _ => (numeral n +:+ rest)%string
          end = (numeral n +:+ rest)%string) as ->.
  { rewrite Hhead, append_String.
    destruct c as [[] [] [] [] [] [] [] []]; try done. }
  rewrite Hlead. rewrite Hhead at 1. rewrite <- Hhead.
  unfold digits_value. rewrite numeral_NilEmpty, NilEmpty.usu.
  rewrite DecimalN.Unsigned.of_to.
  rewrite BootstrapFacts.to_double_exact.
  - apply BootstrapFacts.ToInt32_small. lia.
  - apply N2Z.inj_lt. rewrite N2Z.inj_pow. cbn. lia.
Qed.

(** X18: [getMajor] reads the major version back from a version string: for
    a number below 2^31 written in decimal, followed by anything that does
    not start with a digit, it returns the number, with or without a leading
    [v]. *)
Theorem getMajor_reads_major (n : N) (rest : string) :
  (Z.of_N n < 2 ^ 31)%Z →
  leading_digits rest = ""%string →
  getMajor ("v" +:+ numeral n +:+ rest) = Z.of_N n
  ∧ getMajor (numeral n +:+ rest) = Z.of_N n.
Proof.
  intros Hn Hrest. split; [|by apply getMajor_of_numeral].
  rewrite <- (getMajor_of_numeral n rest Hn Hrest).
  unfold getMajor, match_version. rewrite append_String.
  destruct (numeral_head n) as (c & s & Hhead & Hc).
  rewrite Hhead, append_String.
  destruct c as [[] [] [] [] [] [] [] []]; try done.
Qed.

Lemma getMajor_reads_major_witness :
  getMajor ("v" +:+ numeral 14 +:+ ".16.0") = Z.of_N 14
  ∧ getMajor (numeral 14 +:+ ".16.0") = Z.of_N 14.
Proof.
  apply (getMajor_reads_major 14 ".16.0"); [vm_compute; reflexivity | reflexivity].
Defined.

Ltac closed_dec := apply (bool_decide_unpack _); vm_compute; exact I.

(** X19: the configure arguments depend on their inputs in three places
    only: [--fully-static] is there exactly for the target [linuxstatic],
    [--enable-lto] exactly for a major version of 12 or more on a host other
    than [win], [--shared-zlib] exactly for the target [macos]. They start
    with [--without-inspector], end with [--tag Valetudo], hold no argument
    twice and never hold [--with-intl=full-icu]. *)
Theorem getConfigureArgs_flags (hostPlatform : string) (major : Z)
    (targetPlatform : string) :
  ("--fully-static"%string ∈ getConfigureArgs hostPlatform major targetPlatform
   ↔ targetPlatform = "linuxstatic"%string)
  ∧ ("--enable-lto"%string ∈ getConfigureArgs hostPlatform major targetPlatform
     ↔ (12 ≤ major)%Z ∧ hostPlatform ≠ "win"%string)
  ∧ ("--shared-zlib"%string ∈ getConfigureArgs hostPlatform major targetPlatform
     ↔ targetPlatform = "macos"%string)
  ∧ ("--with-intl=full-icu"%string
     ∉ getConfigureArgs hostPlatform major targetPlatform)
  ∧ NoDup (getConfigureArgs hostPlatform major targetPlatform)
  ∧ getConfigureArgs hostPlatform major targetPlatform !! 0
    = Some "--without-inspector"%string
  ∧ drop (length (getConfigureArgs hostPlatform major targetPlatform) - 2)
         (getConfigureArgs hostPlatform major targetPlatform)
    = ["--tag"%string; "Valetudo"%string].
Proof.
  unfold getConfigureArgs. cbv zeta.
  destruct (decide (targetPlatform = "linuxstatic"%string)) as [Hl|Hl];
    destruct (decide (major >= 12)%Z) as [Hm|Hm];
    destruct (decide (hostPlatform ≠ "win"%string)) as [Hh|Hh];
    destruct (decide (targetPlatform = "macos"%string)) as [Hmac|Hmac];
    try (exfalso; congruence);
    cbn [app];
    (split; [split; [intros Hin; try done; exfalso; revert Hin; closed_dec
                    | intros Hyp; try done; closed_dec]|]);
    (split; [split; [intros Hin; try (split; [lia | done]);
                     exfalso; revert Hin; closed_dec
                    | intros [Hyp1 Hyp2]; try lia; try done; closed_dec]|]);
    (split; [split; [intros Hin; try done; exfalso; revert Hin; closed_dec
                    | intros Hyp; try done; closed_dec]|]);
    (split; [closed_dec|]);
    (split; [closed_dec|]);
    split; reflexivity.
Qed.


Lemma getConfigureArgs_no_full_icu (hostPlatform : string) (major : Z)
    (targetPlatform : string) :
  "--with-intl=full-icu"%string
  ∉ getConfigureArgs hostPlatform major targetPlatform.
Proof.
  unfold getConfigureArgs. cbv zeta.
  repeat case_decide; cbn [app]; closed_dec.
Qed.

Lemma getConfigureArgs_one_without_intl (hostPlatform : string) (major : Z)
    (targetPlatform : string) :
  length (filter (λ flag, flag = "--without-intl"%string)
            (getConfigureArgs hostPlatform major targetPlatform)) = 1.
Proof.
  unfold getConfigureArgs. cbv zeta.
  repeat case_decide; cbn [app]; vm_compute; reflexivity.
Qed.

(** X20: the test for [--with-intl=full-icu] in [compileOnWindows] never
    finds it, since [getConfigureArgs] never produces it. So [config_flags]
    is what [getConfigureArgs] gives when host and target architecture are
    the same, and has a second [--without-intl] at its end in every
    cross-compile. The environment variable is the flags joined by
    spaces. *)
Theorem compileOnWindows_config_flags
    (hostPlatform hostArch nodePath : string)
    (path_join : string → string → string)
    (nodeVersion targetArch targetPlatform : string) :
  config_flags (compileOnWindows hostPlatform hostArch nodePath path_join
                  nodeVersion targetArch targetPlatform)
  = getConfigureArgs hostPlatform (getMajor nodeVersion) targetPlatform
      ++ (if decide (hostArch = targetArch) then []
          else ["--without-intl"%string])
  ∧ length (filter (λ flag, flag = "--without-intl"%string)
              (config_flags
                 (compileOnWindows hostPlatform hostArch nodePath path_join
                    nodeVersion targetArch targetPlatform)))
    = (if decide (hostArch = targetArch) then 1 else 2)
  ∧ config_flags_env
      (compileOnWindows hostPlatform hostArch nodePath path_join
         nodeVersion targetArch targetPlatform)
    = String.concat " "
        (config_flags
           (compileOnWindows hostPlatform hostArch nodePath path_join
              nodeVersion targetArch targetPlatform)).
Proof.
  pose proof (getConfigureArgs_no_full_icu hostPlatform
                (getMajor nodeVersion) targetPlatform) as Hicu.
  pose proof (getConfigureArgs_one_without_intl hostPlatform
                (getMajor nodeVersion) targetPlatform) as Hone.
  assert (config_flags (compileOnWindows hostPlatform hostArch nodePath
                          path_join nodeVersion targetArch targetPlatform)
          = getConfigureArgs hostPlatform (getMajor nodeVersion) targetPlatform
              ++ (if decide (hostArch = targetArch) then []
                  else ["--without-intl"%string])) as Hflags.
  { unfold compileOnWindows. cbn [config_flags].
    destruct (decide (hostArch = targetArch)) as [Heq|Hne].
    - rewrite decide_False by tauto. by rewrite app_nil_r.
    - by rewrite decide_True. }
  split; [exact Hflags|]. split; [|reflexivity].
  rewrite Hflags, filter_app, length_app, Hone.
  by destruct (decide (hostArch = targetArch)).
Qed.

Section Patches.

Variables nodePath patchesPath : string.
Variable path_join : string → string → string.
Variable patchesJson : string → JsonValue.
Variable spawn_ok : Command → bool.

(** The commands [spawn_all] issues are the first commands of its list, up
    to the first that is rejected. *)
Lemma spawn_all_spec (commands : list Command) :
  (spawn_all spawn_ok commands).2 ≠ ThrewTypeError
  ∧ ((spawn_all spawn_ok commands).2 = Done
     → (spawn_all spawn_ok commands).1 = commands
       ∧ Forall (λ c, spawn_ok c = true) commands)
  ∧ ((spawn_all spawn_ok commands).2 = SpawnFailed
     → ∃ before failed after,
         commands = before ++ failed :: after
         ∧ (spawn_all spawn_ok commands).1 = before ++ [failed]
         ∧ Forall (λ c, spawn_ok c = true) before
         ∧ spawn_ok failed = false).
Proof.
  induction commands as [|c rest (IH1 & IH2 & IH3)]; cbn [spawn_all].
  - split; [done|]. split; [by intros _ | done].
  - destruct (spawn_ok c) eqn:Hc; cbn [fst snd].
    + split; [exact IH1|]. split.
      * intros Hdone. destruct (IH2 Hdone) as [-> Hall].
        split; [done | by constructor].
      * intros Hfail.
        destruct (IH3 Hfail) as (before & failed & after & -> & -> & Hb & Hf).
        exists (c :: before), failed, after.
        repeat split; try done. by constructor.
    + split; [done|]. split; [done|]. intros _.
      exists [], c, rest. repeat split; try done.
Qed.

End Patches.

(** X21: a [sameAs] entry of [patches.json] is followed one step, and only
    to an array: when it names a version whose own entry is an object with a
    [patches] key, [applyPatches] throws a [TypeError] before it runs any
    command, although [applyPatches] of the named version applies those
    patches. *)
Theorem applyPatches_sameAs_object
    (nodePath patchesPath : string) (path_join : string → string → string)
    (patchesJson : string → JsonValue) (spawn_ok : Command → bool)
    (nodeVersion other : string) (commit commit' sameAs' : option string)
    (items : list string) :
  patchesJson nodeVersion = JObject commit None (Some other) →
  patchesJson other = JObject commit' (Some items) sameAs' →
  applyPatches nodePath patchesPath path_join patchesJson spawn_ok nodeVersion
  = ([], ThrewTypeError)
  ∧ applyPatches nodePath patchesPath path_join patchesJson spawn_ok other
    = spawn_all spawn_ok (patch_command nodePath patchesPath path_join <$> items).
Proof.
  intros Hversion Hother. unfold applyPatches, stored_patches.
  rewrite Hversion, Hother. done.
Qed.

Lemma applyPatches_sameAs_object_witness :
  applyPatches "/build/node" "/patches" posix_join sample_patches all_ok
    "v16.1.0"
  = ([], ThrewTypeError)
  ∧ applyPatches "/build/node" "/patches" posix_join sample_patches all_ok
      "v16.0.0"
    = spawn_all all_ok
        (patch_command "/build/node" "/patches" posix_join
           <$> ["a.patch"; "b.patch"]%string).
Proof.
  apply (applyPatches_sameAs_object "/build/node" "/patches" posix_join
           sample_patches all_ok "v16.1.0" "v16.0.0" None (Some "abc123"%string)
           None ["a.patch"; "b.patch"]%string);
    reflexivity.
Defined.

(** X22: [applyPatches] applies the patches of a version in the order of
    [patches.json], each with [patch -p1 -i] on its path under the patches
    directory, and stops at the first [patch] that fails: every [patch]
    before the failing one succeeded, the commands it ran are these and the
    failing one, and none after it. It ends normally exactly when every
    [patch] succeeded, and then it ran them all. *)
Theorem applyPatches_stops_at_first_failure
    (nodePath patchesPath : string) (path_join : string → string → string)
    (patchesJson : string → JsonValue) (spawn_ok : Command → bool)
    (nodeVersion : string) (items : list string) :
  patchesJson nodeVersion = JArray items →
  ((applyPatches nodePath patchesPath path_join patchesJson spawn_ok
      nodeVersion).2 = Done
   ↔ Forall (λ patch,
               spawn_ok (mkCommand "patch"
                           ["-p1"%string; "-i"%string;
                            path_join patchesPath patch] nodePath) = true)
            items)
  ∧ ((applyPatches nodePath patchesPath path_join patchesJson spawn_ok
        nodeVersion).2 = Done
     → (applyPatches nodePath patchesPath path_join patchesJson spawn_ok
          nodeVersion).1
       = (λ patch, mkCommand "patch"
                     ["-p1"%string; "-i"%string; path_join patchesPath patch]
                     nodePath) <$> items)
  ∧ ((applyPatches nodePath patchesPath path_join patchesJson spawn_ok
        nodeVersion).2 ≠ Done
     → (applyPatches nodePath patchesPath path_join patchesJson spawn_ok
          nodeVersion).2 = SpawnFailed
       ∧ ∃ before failed after,
           items = before ++ failed :: after
           ∧ Forall (λ patch,
                       spawn_ok (mkCommand "patch"
                                   ["-p1"%string; "-i"%string;
                                    path_join patchesPath patch] nodePath)
                       = true)
                    before
           ∧ spawn_ok (mkCommand "patch"
                         ["-p1"%string; "-i"%string;
                          path_join patchesPath failed] nodePath) = false
           ∧ (applyPatches nodePath patchesPath path_join patchesJson
                spawn_ok nodeVersion).1
             = (λ patch, mkCommand "patch"
                           ["-p1"%string; "-i"%string;
                            path_join patchesPath patch] nodePath)
                 <$> (before ++ [failed])).
Proof.
  intros Hversion. unfold applyPatches, stored_patches. rewrite Hversion.
  fold (patch_command nodePath patchesPath path_join).
  set (commands := patch_command nodePath patchesPath path_join <$> items).
  destruct (spawn_all_spec spawn_ok commands) as (Hnot & Hdone & Hfail).
  split; [|split].
  - split.
    + intros Hd. destruct (Hdone Hd) as [_ Hall].
      unfold commands in Hall. by apply Forall_fmap in Hall.
    + intros Hall.
      destruct ((spawn_all spawn_ok commands).2) eqn:Hend; [done | | done].
      destruct (Hfail eq_refl) as (before & failed & after & Hc & _ & _ & Hf).
      assert (Forall (λ c, spawn_ok c = true) commands) as Hall'
        by (unfold commands; by apply Forall_fmap).
      rewrite Hc in Hall'. apply Forall_app in Hall' as [_ Hall'].
      apply Forall_cons in Hall' as [Hok _]. congruence.
  - intros Hd. by destruct (Hdone Hd) as [-> _].
  - intros Hnd.
    destruct ((spawn_all spawn_ok commands).2) eqn:Hend; [done | | done].
    split; [done|].
    destruct (Hfail eq_refl) as (before & failed & after & Hc & Hran & Hb & Hf).
    unfold commands in Hc.
    apply fmap_app_inv in Hc as (before' & rest' & -> & Hrest & ->).
    symmetry in Hrest.
    apply fmap_cons_inv in Hrest as (failed' & after' & -> & -> & ->).
    exists before', failed', after'. split; [done|].
    split; [by apply Forall_fmap in Hb|].
    split; [exact Hf | by rewrite Hran, fmap_app].
Qed.

Lemma applyPatches_stops_at_first_failure_witness :
  ((applyPatches "/build/node" "/patches" posix_join three_patches rejects_b
      "v14.16.0").2 = Done
   ↔ Forall (λ patch,
               rejects_b (mkCommand "patch"
                            ["-p1"%string; "-i"%string;
                             posix_join "/patches" patch] "/build/node")
               = true)
            ["a.patch"; "b.patch"; "c.patch"]%string)
  ∧ ((applyPatches "/build/node" "/patches" posix_join three_patches rejects_b
        "v14.16.0").2 = Done
     → (applyPatches "/build/node" "/patches" posix_join three_patches
          rejects_b "v14.16.0").1
       = (λ patch, mkCommand "patch"
                     ["-p1"%string; "-i"%string; posix_join "/patches" patch]
                     "/build/node")
           <$> ["a.patch"; "b.patch"; "c.patch"]%string)
  ∧ ((applyPatches "/build/node" "/patches" posix_join three_patches rejects_b
        "v14.16.0").2 ≠ Done
     → (applyPatches "/build/node" "/patches" posix_join three_patches
          rejects_b "v14.16.0").2 = SpawnFailed
       ∧ ∃ before failed after,
           ["a.patch"; "b.patch"; "c.patch"]%string
           = before ++ failed :: after
           ∧ Forall (λ patch,
                       rejects_b (mkCommand "patch"
                                    ["-p1"%string; "-i"%string;
                                     posix_join "/patches" patch]
                                    "/build/node")
                       = true)
                    before
           ∧ rejects_b (mkCommand "patch"
                          ["-p1"%string; "-i"%string;
                           posix_join "/patches" failed] "/build/node")
             = false
           ∧ (applyPatches "/build/node" "/patches" posix_join three_patches
                rejects_b "v14.16.0").1
             = (λ patch, mkCommand "patch"
                           ["-p1"%string; "-i"%string;
                            posix_join "/patches" patch] "/build/node")
                 <$> (before ++ [failed])).
Proof.
  apply (applyPatches_stops_at_first_failure "/build/node" "/patches"
           posix_join three_patches rejects_b "v14.16.0"
           ["a.patch"; "b.patch"; "c.patch"]%string).
  reflexivity.
Defined.

(** The run of the three patches: the first succeeds, the second fails, the
    third is not tried. *)
Lemma applyPatches_three_patches :
  applyPatches "/build/node" "/patches" posix_join three_patches rejects_b
    "v14.16.0"
  = ([mkCommand "patch" ["-p1"; "-i"; "/patches/a.patch"]%string "/build/node";
      mkCommand "patch" ["-p1"; "-i"; "/patches/b.patch"]%string "/build/node"],
     SpawnFailed).
Proof. vm_compute. reflexivity. Qed.

Lemma null_files_spec (nodePath : string)
    (path_join : string → string → string) (write_ok : string → bool)
    (files : list string) :
  ∀ disk : gmap string (list byte),
    dom (null_files nodePath path_join write_ok files disk).1 = dom disk
    ∧ (∀ p : string,
         (null_files nodePath path_join write_ok files disk).1 !! p
         = disk !! p
         ∨ (p ∈ path_join nodePath <$> files
            ∧ is_Some (disk !! p)
            ∧ (null_files nodePath path_join write_ok files disk).1 !! p
              = Some [x00]))
    ∧ ((null_files nodePath path_join write_ok files disk).2 = true →
       ∀ p : string,
         p ∈ path_join nodePath <$> files →
         is_Some (disk !! p) →
         (null_files nodePath path_join write_ok files disk).1 !! p
         = Some [x00]).
Proof.
  induction files as [|f rest IH]; intros disk; cbn [null_files].
  - split; [done|]. split; [by left|].
    intros _ p Hp. by apply elem_of_nil in Hp.
  - set (full := path_join nodePath f).
    destruct (disk !! full) as [old|] eqn:Hfull.
    + destruct (write_ok full).
      * destruct (IH (<[full := [x00]]> disk)) as (Hdom & Hframe & Hdone).
        assert (∀ p, is_Some (<[full := [x00]]> disk !! p)
                     ↔ is_Some (disk !! p)) as Hsome.
        { intros p. destruct (decide (p = full)) as [->|Hne].
          - rewrite lookup_insert_eq, Hfull. split; by eexists.
          - by rewrite lookup_insert_ne. }
        split; [|split].
        -- rewrite Hdom, dom_insert_L.
           apply subseteq_union_1_L, singleton_subseteq_l, elem_of_dom.
           by eexists.
        -- intros p. destruct (Hframe p) as [Heq|(Hin & Hs & Heq)].
           ++ destruct (decide (p = full)) as [->|Hne].
              ** right. rewrite fmap_cons.
                 split; [by left|]. split; [by eexists|].
                 by rewrite Heq, lookup_insert_eq.
              ** left. by rewrite Heq, lookup_insert_ne.
           ++ right. rewrite fmap_cons.
              split; [by right|]. split; [by apply Hsome | done].
        -- intros Hok p Hp Hs. rewrite fmap_cons in Hp.
           apply elem_of_cons in Hp as [->|Hp].
           ++ fold full.
              destruct (Hframe full) as [Heq|(_ & _ & Heq)]; [|done].
              by rewrite Heq, lookup_insert_eq.
           ++ apply (Hdone Hok p Hp). by apply Hsome.
      * cbn [fst snd]. split; [done|]. split; [by left | done].
    + destruct (IH disk) as (Hdom & Hframe & Hdone).
      split; [done|]. split.
      * intros p. destruct (Hframe p) as [Heq|(Hin & Hs & Heq)]; [by left|].
        right. rewrite fmap_cons. split; [by right | done].
      * intros Hok p Hp Hs. rewrite fmap_cons in Hp.
        apply elem_of_cons in Hp as [->|Hp].
        -- fold full in Hs. rewrite Hfull in Hs. by destruct Hs.
        -- by apply Hdone.
Qed.

(** X23: [nullWasmFiles] neither creates nor removes a file, and leaves
    every file other than the three wasm files under the node directory as
    it is. A file it touches holds a single zero byte afterwards; when it
    ends without an error, that is so for each of the three that was
    there. *)
Theorem nullWasmFiles_only_nulls
    (nodePath : string) (path_join : string → string → string)
    (write_ok : string → bool) (disk : gmap string (list byte)) :
  dom (nullWasmFiles nodePath path_join write_ok disk).1 = dom disk
  ∧ (∀ p : string,
       p ∉ path_join nodePath <$> wasmFilesToNeuter →
       (nullWasmFiles nodePath path_join write_ok disk).1 !! p = disk !! p)
  ∧ (∀ p : string,
       (nullWasmFiles nodePath path_join write_ok disk).1 !! p = disk !! p
       ∨ (nullWasmFiles nodePath path_join write_ok disk).1 !! p
         = Some [x00])
  ∧ ((nullWasmFiles nodePath path_join write_ok disk).2 = true →
     ∀ p : string,
       p ∈ path_join nodePath <$> wasmFilesToNeuter →
       is_Some (disk !! p) →
       (nullWasmFiles nodePath path_join write_ok disk).1 !! p = Some [x00]).
Proof.
  unfold nullWasmFiles.
  destruct (null_files_spec nodePath path_join write_ok wasmFilesToNeuter disk)
    as (Hdom & Hframe & Hdone).
  split; [exact Hdom|]. split; [|split; [|exact Hdone]].
  - intros p Hp. by destruct (Hframe p) as [Heq|(Hin & _)].
  - intros p. destruct (Hframe p) as [Heq|(_ & _ & Heq)]; [by left | by right].
Qed.

End BuildFacts.
